(** * zustand-store-addons: computed properties, watchers and middleware

    A shallow embedding of [src/index.ts].  JavaScript objects that are
    only read by key ([State], the partial [changes], [updatedComputed])
    are finite maps; objects that are iterated with [Object.entries]
    ([_computedPropDependencies], [_watchers]) are association lists in
    iteration order.  Effects (the store held by zustand, the console,
    exceptions raised by reactions) are threaded through a small state
    and exception monad.

    Conventions.  Strings are sequences of one-byte characters.  Property
    reads see own properties only (no prototype chain).  Derivation
    functions and updater functions are total and have no effect of
    their own; reactions are scripts over the context they are given.
    zustand's store ([create], its [setState], the hook and
    [zustand/shallow]) and lodash's [flow] are not part of the
    repository and are modelled after their documented behaviour. *)

From Stdlib Require Import ZArith Ascii String List.
From stdpp Require Import base option list gmap strings fin_maps.

Local Open Scope string_scope.

(** ** Values and state objects *)

(** JavaScript values: primitives are compared by value, everything that
    lives on the heap is held by reference. *)
Inductive value : Type :=
| VUndefined
| VNull
| VBool (b : bool)
| VNum (n : Z)
| VStr (s : string)
| VRef (loc : positive).

#[global] Instance value_eq_dec : EqDecision value.
Proof. solve_decision. Defined.

#[global] Instance value_inhabited : Inhabited value := populate VUndefined.

(** [TStateRecords]: own enumerable string keys to values.  A property
    read [o[k]] is [o !!! k]: the value, or [undefined] when absent. *)
Abbreviation State := (gmap string value).

(** [ToBoolean] of the ECMAScript specification. *)
Definition truthy (v : value) : bool :=
  match v with
  | VUndefined | VNull => false
  | VBool b => b
  | VNum n => negb (n =? 0)%Z
  | VStr s => negb (String.eqb s "")
  | VRef _ => true
  end.

(** [Object.keys(o)], [a.includes(x)] and the spread [{...a, ...b}]
    (later sources win, so the spread is [b ∪ a]). *)
Definition Object_keys (o : State) : list string := (map_to_list o).*1.

Definition includes (aArray : list string) (elem : string) : bool :=
  bool_decide (elem ∈ aArray).

(** ** [getDeps]: dependencies read off the source text *)

(** A derivation function: the text [fn.toString()] returns, and what
    [fn.apply(ctx)] evaluates to. *)
Record CompFn : Type := mkCompFn {
  toString : string;
  apply : State → value
}.

(** [\w] *)
Definition is_word (c : ascii) : bool :=
  let n := nat_of_ascii c in
  (((48 <=? n) && (n <=? 57)) || ((65 <=? n) && (n <=? 90))
   || ((97 <=? n) && (n <=? 122)) || (n =? 95))%nat.

(** The longest run of [\w] at the head of [s], and what follows it. *)
Fixpoint take_word (s : string) : string * string :=
  match s with
  | String c s' =>
      if is_word c then let '(w, rest) := take_word s' in (String c w, rest)
      else ("", s)
  | EmptyString => ("", s)
  end.

Fixpoint strip_prefix (p s : string) : option string :=
  match p, s with
  | EmptyString, _ => Some s
  | String a p', String b s' => if Ascii.eqb a b then strip_prefix p' s' else None
  | String _ _, EmptyString => None
  end.

(** A match of a regular expression anchored at the head of the text:
    the matched text and capture group 1. *)
Definition Matcher := string → option (string * string).

(** [/(?:this\.)(\w+)/] at the head of [s]. *)
Definition reg : Matcher := fun s =>
  match strip_prefix "this." s with
  | Some rest =>
      let '(w, _) := take_word rest in
      if String.eqb w "" then None else Some ("this." ++ w, w)
  | None => None
  end.

(** [/(?:this\[')(\w+)(?:'\])/] at the head of [s].  [\w+] is greedy and
    the quote is not a word character, so only the longest run can be
    followed by the closing [']]. *)
Definition reg2 : Matcher := fun s =>
  match strip_prefix "this['" s with
  | Some rest =>
      let '(w, rest') := take_word rest in
      if String.eqb w "" then None
      else match strip_prefix "']" rest' with
           | Some _ => Some ("this['" ++ w ++ "']", w)
           | None => None
           end
  | None => None
  end.

(** The match objects [matchAll] yields.  Each one is a fresh array;
    [oid] is its identity as an object. *)
Record RegExpMatch : Type := mkMatch {
  oid : nat;
  index : nat;
  m0 : string;
  m1 : string
}.

#[global] Instance RegExpMatch_eq_dec : EqDecision RegExpMatch.
Proof. solve_decision. Defined.

(** [Array.from(text.matchAll(re))] for a global [re]: leftmost match
    first, the scan resumes where the match ended ([skip] counts the
    characters of the current match still to pass over).  [pos] is the
    index of the head of [s] in the text, [next] the identity the next
    match object gets. *)
Fixpoint matchAll (re : Matcher) (skip pos next : nat) (s : string) : list RegExpMatch :=
  match s with
  | EmptyString => []
  | String _ s' =>
      match skip with
      | S k => matchAll re k (S pos) next s'
      | O =>
          match re s with
          | Some (full, group) =>
              mkMatch next pos full group
                :: matchAll re (String.length full - 1) (S pos) (S next) s'
          | None => matchAll re 0 (S pos) next s'
          end
      end
  end.

(** [Array.from(new Set(xs))] on objects: [Set] keeps the first of the
    entries that are the same object (SameValueZero is identity on
    objects), in insertion order. *)
Fixpoint Set_of_objects (xs : list RegExpMatch) (seen : list nat) : list RegExpMatch :=
  match xs with
  | [] => []
  | x :: xs' =>
      if bool_decide (oid x ∈ seen) then Set_of_objects xs' seen
      else x :: Set_of_objects xs' (oid x :: seen)
  end.

Definition getDeps (fn : CompFn) : list string :=
  let matches := matchAll reg 0 0 0 (toString fn) in
  let matches2 := matchAll reg2 0 0 (length matches) (toString fn) in
  m1 <$> Set_of_objects (matches ++ matches2) [].

(** [intersection(aArray, bArray)]: the elements of [bArray] that
    [aArray] includes, in the order of [bArray]. *)
Definition intersection (aArray bArray : list string) : list string :=
  List.filter (includes aArray) bArray.

(** ** The world: zustand's store, the console, exceptions *)

(** What a write call leaves behind, in order.  Console calls are the
    code's; [WatcherCalled] records each [fn.apply(ctx, [new, old])] of
    the dispatch loop and [StageSeen] an observation made by a
    middleware stage.  Every entry carries the nesting depth of the
    write call that produced it: [0] for a call from outside, [S d] for
    a call a reaction makes while a write of depth [d] dispatches. *)
Inductive Event : Type :=
| ConsoleGroup (label : string)
| ConsoleLog (label : string) (payload : option State)
| ConsoleGroupEnd
| WatcherCalled (propName : string) (newValue oldValue : value)
| StageSeen (stage : nat).

Record World : Type := mkWorld {
  store : State;
  trace : list (nat * Event)
}.

Inductive outcome (A : Type) : Type :=
| Done (a : A)
| Raised (e : string)
| OutOfFuel.
Arguments Done {A} a.
Arguments Raised {A} e.
Arguments OutOfFuel {A}.

(** Computations over the world.  A raised exception keeps the world as
    it was when it was raised: nothing is undone. *)
Definition M (A : Type) : Type := World → World * outcome A.

#[global] Instance M_ret : MRet M := λ A a w, (w, Done a).

#[global] Instance M_bind : MBind M := λ A B f m w,
  match m w with
  | (w', Done a) => f a w'
  | (w', Raised e) => (w', Raised e)
  | (w', OutOfFuel) => (w', OutOfFuel)
  end.

Definition throw {A} (e : string) : M A := λ w, (w, Raised e).
Definition getState : M State := λ w, (w, Done (store w)).
Definition putState (st : State) : M unit := λ w, (mkWorld st (trace w), Done tt).
Definition emit (d : nat) (e : Event) : M unit :=
  λ w, (mkWorld (store w) (trace w ++ [(d, e)]), Done tt).

(** [cond && effect] used as a statement. *)
Definition when (cond : bool) (effect : M unit) : M unit :=
  if cond then effect else mret tt.

(** The first argument of a write: a partial state or an updater. *)
Inductive PartialState : Type :=
| Plain (o : State)
| Updater (f : State → State).

Definition resolve (partialState : PartialState) (currentState : State) : State :=
  match partialState with
  | Updater f => f currentState
  | Plain o => o
  end.

(** A write function: [(partial, second) => void].  The second argument
    is the [setSettings] object of the add-ons, or zustand's [replace]
    flag; [None] is [undefined]. *)
Definition SetState : Type := PartialState → option State → M unit.

(** zustand's own [setState(partial, replace)]: without [replace] the
    next state is [Object.assign({}, state, nextState)]. *)
Definition zustand_setState : SetState := λ partial replace w,
  let nextState := resolve partial (store w) in
  (mkWorld (match replace with
            | Some _ => nextState
            | None => nextState ∪ store w
            end) (trace w), Done tt).

(** What a reaction does with its context [{ set, get, api }]: it
    returns, raises, writes through [this.set] or reads [this.get()]. *)
Inductive Script : Type :=
| Ret
| Raise (e : string)
| CallSet (partial : PartialState) (setSettings : option State) (next : Script)
| CallGet (next : State → Script).

Definition Reaction : Type := value → value → Script.

Fixpoint runScript (apiSetState : SetState) (s : Script) : M unit :=
  match s with
  | Ret => mret tt
  | Raise e => throw e
  | CallSet partial setSettings next =>
      apiSetState partial setSettings;; runScript apiSetState next
  | CallGet next => st ← getState; runScript apiSetState (next st)
  end.

(** A reaction body that neither raises nor writes. *)
Fixpoint returns (s : Script) : Prop :=
  match s with
  | Ret => True
  | Raise _ | CallSet _ _ _ => False
  | CallGet next => ∀ st, returns (next st)
  end.

(** A reaction body that never writes. *)
Fixpoint read_only (s : Script) : Prop :=
  match s with
  | Ret | Raise _ => True
  | CallSet _ _ _ => False
  | CallGet next => ∀ st, read_only (next st)
  end.

(** ** The closure variables of [createStore] *)

Definition LogLevel_None : string := "none".
Definition LogLevel_Diff : string := "diff".
Definition LogLevel_All : string := "all".

(** [name?: string, logLevel?: LogLevel | string]; [None] is an absent
    field. *)
Record IAddonsSettings : Type := mkSettings {
  name : option string;
  logLevel : option string
}.

(** A template literal prints an absent value as [undefined]. *)
Definition template (v : option string) : string := default "undefined" v.

Record Instance : Type := mkInstance {
  _computed : gmap string CompFn;
  _computedPropDependencies : list (string * list string);
  _watchers : list (string * Reaction);
  _settings : IAddonsSettings
}.

(** An own property set on an object kept in [Object.entries] order:
    an existing key keeps its place, a new one goes last.  (JavaScript
    lists keys that are array indices first; the registries are filled in
    the enumeration order of the object they are copied from, so they
    enumerate in the order they were filled.) *)
Fixpoint put {A} (key : string) (v : A) (obj : list (string * A)) : list (string * A) :=
  match obj with
  | [] => [(key, v)]
  | (k, x) :: rest =>
      if String.eqb k key then (k, v) :: rest else (k, x) :: put key v rest
  end.

(** The key whose assignment reaches the setter of [Object.prototype]. *)
Definition proto : string := "__proto__".

(** [obj[key] = v] where [v] is a function or an array, as everything
    [createStore] puts in its registries is.  At the key [__proto__] the
    assignment sets the prototype of [obj] and makes no entry; the
    registries are only read at their own keys, so nothing shows of it. *)
Definition assign {A} (key : string) (v : A) (obj : list (string * A)) : list (string * A) :=
  if String.eqb key proto then obj else put key v obj.

(** The same on a registry that is only read by key. *)
Definition assign_entry {A} (key : string) (v : A) (obj : gmap string A) : gmap string A :=
  if String.eqb key proto then obj else <[key := v]> obj.

(** ** [setMiddleware] *)

(** Lines 100-109: the loop over [Object.entries(_computedPropDependencies)].
    [None] is the [TypeError] of calling [.apply] on a missing [_computed]
    entry. *)
Fixpoint recompute (computed : gmap string CompFn) (currentState changes : State)
    (entries : list (string * list string)) (updatedComputed : State) : option State :=
  match entries with
  | [] => Some updatedComputed
  | (compPropName, compPropDeps) :: rest =>
      let needsRecompute := intersection (Object_keys changes) compPropDeps in
      if (0 <? length needsRecompute)%nat then
        fn ← computed !! compPropName;
        recompute computed currentState changes rest
          (<[compPropName := apply fn (updatedComputed ∪ (changes ∪ currentState))]>
             updatedComputed)
      else recompute computed currentState changes rest updatedComputed
  end.

(** [a ?? b] *)
Definition nullish (a b : value) : value :=
  match a with
  | VUndefined | VNull => b
  | _ => a
  end.

(** [o?.key]: [undefined] when [o] is. *)
Definition optional_chain (o : option State) (key : string) : value :=
  match o with
  | Some o => o !!! key
  | None => VUndefined
  end.

(** Line 88.  [!x ?? true] parses as [(!x) ?? true]. *)
Definition logOperationsOf (settings : IAddonsSettings) (setSettings : option State) : bool :=
  truthy (nullish (VBool (negb (truthy (optional_chain setSettings "excludeInLogs"))))
            (VBool true))
  && negb (bool_decide (logLevel settings = Some LogLevel_None)).

(** Lines 86-116: up to and including the commit [set(newState)].
    Returns [newState], [currentState] and [logOperations] for the rest
    of the body. *)
Definition commitPhase (inst : Instance) (d : nat)
    (args : PartialState * option State) (set : SetState) : M (State * State * bool) :=
  let '(partialState, setSettings) := args in
  let logOperations := logOperationsOf (_settings inst) setSettings in
  currentState ← getState;
  let changes := resolve partialState currentState in
  let group := template (name (_settings inst)) ++ " state changed" in
  when logOperations (emit d (ConsoleGroup group));;
  when (logOperations && bool_decide (logLevel (_settings inst) = Some LogLevel_All))
    (emit d (ConsoleLog "Previous State" (Some currentState)));;
  when logOperations (emit d (ConsoleLog "Applying" (Some changes)));;
  match recompute (_computed inst) currentState changes
          (_computedPropDependencies inst) ∅ with
  | None => throw "TypeError"
  | Some updatedComputed =>
      when (0 <? length (Object_keys updatedComputed))%nat
        (when logOperations
           (emit d (ConsoleLog "Updating computed values" (Some updatedComputed))));;
      let newState := updatedComputed ∪ changes in
      set (Plain newState) None;;
      mret (newState, currentState, logOperations)
  end.

(** Lines 120-124: one reaction called with [(newValue, oldValue)]. *)
Definition callWatcher (apiSetState : SetState) (d : nat) (logOperations : bool)
    (newState currentState : State) (entry : string * Reaction) : M unit :=
  let '(propName, fn) := entry in
  when logOperations (emit d (ConsoleLog ("Triggering watcher: " ++ propName) None));;
  emit d (WatcherCalled propName (newState !!! propName) (currentState !!! propName));;
  runScript apiSetState (fn (newState !!! propName) (currentState !!! propName)).

(** Lines 118-126: the loop over [Object.entries(_watchers)]. *)
Fixpoint dispatchWatchers (apiSetState : SetState) (d : nat) (logOperations : bool)
    (newState currentState : State) (entries : list (string * Reaction)) : M unit :=
  match entries with
  | [] => mret tt
  | entry :: rest =>
      (if includes (Object_keys newState) entry.1
       then callWatcher apiSetState d logOperations newState currentState entry
       else mret tt);;
      dispatchWatchers apiSetState d logOperations newState currentState rest
  end.

(** Lines 85-130.  [apiSetState] is what [_api.setState] holds when the
    reactions run. *)
Definition setMiddleware (inst : Instance) (apiSetState : SetState) (d : nat)
    (args : PartialState * option State) (set : SetState) : M unit :=
  '(newState, currentState, logOperations) ← commitPhase inst d args set;
  dispatchWatchers apiSetState d logOperations newState currentState (_watchers inst);;
  when (logOperations && bool_decide (logLevel (_settings inst) = Some LogLevel_All))
    (st ← getState; emit d (ConsoleLog "New State" (Some st)));;
  when logOperations (emit d ConsoleGroupEnd).

(** Lines 81-83.  [_api.setState] is [setState] itself once the store is
    built, so a reaction that writes re-enters [setMiddleware]; [fuel]
    bounds the nesting of such calls ([setState (S n)] allows reactions
    to nest writes [n] deep).  [d] is the depth the call is made at. *)
Fixpoint setState (fuel : nat) (inst : Instance) (_originalSetState : SetState)
    (d : nat) : SetState :=
  λ args setSettings,
    match fuel with
    | O => λ w, (w, OutOfFuel)
    | S fuel' =>
        setMiddleware inst (setState fuel' inst _originalSetState (S d)) d
          (args, setSettings) _originalSetState
    end.

(** The committed change set of a write made in [currentState]: the
    explicit changes merged with the recomputed values (line 115). *)
Definition newStateOf (inst : Instance) (partialState : PartialState)
    (currentState : State) : option State :=
  updatedComputed ← recompute (_computed inst) currentState
                      (resolve partialState currentState)
                      (_computedPropDependencies inst) ∅;
  Some (updatedComputed ∪ resolve partialState currentState).

(** ** Building the store *)

(** Lines 137-153, the loop.  [computed] is [Object.entries(computed)]. *)
Fixpoint configComputed_loop (computed : list (string * CompFn)) (inst : Instance)
    (computedToAdd : State) : M (Instance * State) :=
  match computed with
  | [] => mret (inst, computedToAdd)
  | (key, value) :: rest =>
      let deps := getDeps value in
      let inst' :=
        if (0 <? length deps)%nat
        then mkInstance (assign_entry key value (_computed inst))
               (assign key deps (_computedPropDependencies inst))
               (_watchers inst) (_settings inst)
        else inst in
      st ← getState;
      configComputed_loop rest inst'
        (<[key := apply value (computedToAdd ∪ st)]> computedToAdd)
  end.

(** Lines 137-153.  The initial values go through [_api.setState].
    What the api object holds reads the registries when it is called, so
    it is given as a function of the registries as they then stand. *)
Definition configComputed (_api_setState : Instance → SetState)
    (computed : list (string * CompFn)) (inst : Instance) : M Instance :=
  '(inst', computedToAdd) ← configComputed_loop computed inst ∅;
  when (0 <? length (Object_keys computedToAdd))%nat
    (_api_setState inst' (Plain computedToAdd) None);;
  mret inst'.

(** Lines 155-159. *)
Definition configWatchers (watchers : list (string * Reaction)) (inst : Instance) : Instance :=
  mkInstance (_computed inst) (_computedPropDependencies inst)
    (fold_left (λ acc '(propName, fn), assign propName fn acc) watchers (_watchers inst))
    (_settings inst).

(** zustand's [StoreApi], as far as the add-ons touch it. *)
Record StoreApi : Type := mkApi { api_setState : SetState }.

(** What running a state creator [(set, get, api) => state] yields: the
    initial state, the [set] the state initializer was handed (its
    actions close over it), the api object as the creator left it, and
    the write function the innermost creator found on the api object and
    kept in the closure variable [_originalSetState] (line 167). *)
Record Created : Type := mkCreated {
  initial : State;
  initializer_set : SetState;
  api_after : StoreApi;
  original_setState : SetState
}.

Definition StateCreator : Type := SetState → StoreApi → Created.
Definition Middleware : Type := StateCreator → StateCreator.

(** lodash [flow(funcs)(x)]: the functions applied left to right. *)
Definition flow {A} (funcs : list (A → A)) (x : A) : A :=
  fold_left (λ acc f, f acc) funcs x.

(** Lines 132-135. *)
Definition middlewareFunctions (middleware : option (list Middleware))
    (store : StateCreator) : StateCreator :=
  match middleware with
  | Some middleware => flow middleware store
  | None => store
  end.

(** The closure variable [_originalSetState] as the reactions of the
    interceptor below find it: what the innermost creator kept when the
    composed creator [config] ran.  A stage may have built the write
    function of the api object from the [set] it was handed, which is
    the interceptor itself, whose reactions write through
    [_originalSetState] in their turn; [fuel] bounds that nesting. *)
Fixpoint originalSetState_of (fuel : nat) (inst : Instance) (config : StateCreator)
    (set : SetState) (api : StoreApi) : SetState :=
  match fuel with
  | O => λ _ _ w, (w, OutOfFuel)
  | S fuel' =>
      original_setState
        (config (λ args setSettings,
                   setMiddleware inst
                     (setState fuel' inst (originalSetState_of fuel' inst config set api) 1) 0
                     (args, setSettings) set)
                api)
  end.

(** Lines 72-79.  The registries and [_api.setState] are read when the
    returned [set] is called; [_api.setState] is then [setState] (lines
    81-83, 168), which writes through [_originalSetState]. *)
Definition attachMiddleWare (fuel : nat) (inst : Instance) (config : StateCreator) : StateCreator :=
  λ set api,
    config (λ args setSettings,
              setMiddleware inst
                (setState fuel inst (originalSetState_of fuel inst config set api) 1) 0
                (args, setSettings) set)
           api.

(** Lines 165-171, the innermost state creator: it keeps the write
    function it finds on the api object (zustand's own, or the one a
    stage has put there) as [_originalSetState] and installs [setState]
    on the api object.  A reaction is handed [_api.setState] when it
    runs; that is taken to be this [setState] still, as it is unless a
    stage assigns to the api object after the creator it wraps has
    run. *)
Definition core (fuel : nat) (inst : Instance) (stateInitializer : State) : StateCreator :=
  λ set api,
    let _originalSetState := api_setState api in
    mkCreated stateInitializer set (mkApi (setState (S fuel) inst _originalSetState 0))
      _originalSetState.

(** zustand's [create(createState)]: the creator is run once with the
    store's own write function and api object. *)
Definition create (createState : StateCreator) : Created :=
  createState zustand_setState (mkApi zustand_setState).

(** A stage of the usual shape [config => (set, get, api) =>
    config(wrapped set, get, api)]. *)
Definition wrapping (wrap : SetState → SetState) : Middleware :=
  λ config set api, config (wrap set) api.

(** A stage that notes every write it sees and passes it on. *)
Definition observing (stage : nat) : Middleware :=
  wrapping (λ next args setSettings, emit 0 (StageSeen stage);; next args setSettings).


(** ** The accessor [stateHook] *)

Definition is_space (c : ascii) : bool :=
  let n := nat_of_ascii c in
  (((9 <=? n) && (n <=? 13)) || (n =? 32) || (n =? 160))%nat.

(** [s.split(",")] *)
Fixpoint split_comma (s : string) : list string :=
  match s with
  | EmptyString => [""]
  | String c s' =>
      if Ascii.eqb c "," then "" :: split_comma s'
      else match split_comma s' with
           | part :: parts => String c part :: parts
           | [] => [String c ""]
           end
  end.

Fixpoint trimStart (s : string) : string :=
  match s with
  | String c s' => if is_space c then trimStart s' else s
  | EmptyString => s
  end.

Fixpoint trimEnd (s : string) : string :=
  match s with
  | String c s' =>
      let t := trimEnd s' in
      if is_space c && String.eqb t "" then "" else String c t
  | EmptyString => s
  end.

(** [s.trim()] *)
Definition trim (s : string) : string := trimEnd (trimStart s).

(** [s.indexOf(",") !== -1] *)
Fixpoint has_comma (s : string) : bool :=
  match s with
  | String c s' => Ascii.eqb c "," || has_comma s'
  | EmptyString => false
  end.

Inductive Selector : Type :=
| ByName (selector : string)
| ByFunction (selector : State → value).

(** What a selector hands back: one value, or the array a batch read
    builds anew on every call. *)
Inductive Selected : Type :=
| One (v : value)
| Many (items : list value).

Definition Object_is (a b : value) : bool := bool_decide (a = b).

(** [zustand/shallow].  Two arrays built by a selector are never the
    same object; they are shallow-equal when they have the same length
    and [Object.is] holds index by index.  The fields of heap objects
    are not modelled, so on single values this is [Object.is]. *)
Fixpoint shallow_items (xs ys : list value) : bool :=
  match xs, ys with
  | [], [] => true
  | x :: xs', y :: ys' => Object_is x y && shallow_items xs' ys'
  | _, _ => false
  end.

Definition shallow (objA objB : Selected) : bool :=
  match objA, objB with
  | One a, One b => Object_is a b
  | Many xs, Many ys => shallow_items xs ys
  | _, _ => false
  end.

Inductive EqualityChecker : Type :=
| Shallow
| Custom (equalityFn : Selected → Selected → bool).

(** The call [hook(selector, equalityFn)] that [stateHook] ends in. *)
Record HookCall : Type := mkHook {
  hook_selector : State → Selected;
  hook_equalityFn : option EqualityChecker
}.

(** Lines 175-184. *)
Definition stateHook (selector : Selector) (equalityFn : option EqualityChecker) : HookCall :=
  match selector with
  | ByName selector =>
      if has_comma selector then
        let props := trim <$> split_comma selector in
        mkHook (λ state, Many ((λ prop, state !!! prop) <$> props)) (Some Shallow)
      else mkHook (λ state, One (state !!! selector)) equalityFn
  | ByFunction selector => mkHook (λ state, One (selector state)) equalityFn
  end.

(** zustand's hook returns the selected slice of the current state, and
    notifies when the equality function says the slice changed
    ([Object.is] when none is given). *)
Definition hook_value (h : HookCall) (state : State) : Selected := hook_selector h state.

Definition hook_equal (h : HookCall) (a b : Selected) : bool :=
  match hook_equalityFn h with
  | Some Shallow => shallow a b
  | Some (Custom equalityFn) => equalityFn a b
  | None => match a, b with
            | One x, One y => Object_is x y
            | _, _ => false
            end
  end.

(** ** [createStore] *)

(** The add-ons object.  [computed] and [watchers] are given as
    [Object.entries] lists them; [None] is an absent field. *)
Record IAddons : Type := mkAddons {
  computed : option (list (string * CompFn));
  watchers : option (list (string * Reaction));
  middleware : option (list Middleware);
  settings : option IAddonsSettings
}.

(** What [createStore] returns, [stateHook] with the api object copied
    onto it, together with the registries and the [set] the state
    initializer was handed. *)
Record UseStore : Type := mkUseStore {
  registries : Instance;
  use_setState : SetState;
  use_initializer_set : SetState
}.

(** [create(attachMiddleWare(middlewareFunctions(addons?.middleware, core)))]
    with the registries as they stand. *)
Definition wire (fuel : nat) (inst : Instance) (addons : option IAddons)
    (stateInitializer : State) : Created :=
  create (attachMiddleWare fuel inst
            (middlewareFunctions (addons ≫= middleware)
               (core fuel inst stateInitializer))).

(** Lines 57-193.  [stateInitializer] is the data the state initializer
    returns; [fuel] is how deep reactions may nest writes. *)
Definition createStore (fuel : nat) (stateInitializer : State)
    (addons : option IAddons) : M UseStore :=
  let inst0 :=
    mkInstance ∅ [] []
      (mkSettings (Some (default "MyStore" ((addons ≫= settings) ≫= name)))
                  (Some (default LogLevel_None ((addons ≫= settings) ≫= logLevel)))) in
  putState (initial (wire fuel inst0 addons stateInitializer));;
  inst1 ← configComputed
            (λ inst, api_setState (api_after (wire fuel inst addons stateInitializer)))
            (default [] (addons ≫= computed)) inst0;
  let inst2 := configWatchers (default [] (addons ≫= watchers)) inst1 in
  let hook := wire fuel inst2 addons stateInitializer in
  mret (mkUseStore inst2 (api_setState (api_after hook)) (initializer_set hook)).

(** ** Vocabulary of the statements *)

(** A dependency set meets the keys of the explicit changes. *)
Definition touched (changes : State) (deps : list string) : Prop :=
  ∃ k, k ∈ deps ∧ is_Some (changes !! k).

(** The derivation reads nothing but the properties in [deps]. *)
Definition reads_only (fn : CompFn) (deps : list string) : Prop :=
  ∀ s1 s2 : State, (∀ k, k ∈ deps → s1 !!! k = s2 !!! k) → apply fn s1 = apply fn s2.

(** No stale computed value between two states: every registered entry
    with a dependency whose value differs holds its derivation applied
    to the later state. *)
Definition no_stale_computed (inst : Instance) (before after : State) : Prop :=
  ∀ E deps fn,
    (E, deps) ∈ _computedPropDependencies inst →
    _computed inst !! E = Some fn →
    (∃ k, k ∈ deps ∧ after !!! k ≠ before !!! k) →
    after !!! E = apply fn after.

(** The stages of the add-ons, if there are any, wrap the [set] they
    hand down and do nothing else. *)
Definition only_wraps_set (addons : option IAddons) : Prop :=
  ∃ wraps : list (SetState → SetState),
    ∀ store, middlewareFunctions (addons ≫= middleware) store = flow (wrapping <$> wraps) store.

(** The entries [configComputed] puts in [_computedPropDependencies]:
    those with a dependency, in the order of [Object.entries(computed)];
    none for the key [__proto__]. *)
Definition registered (computed : list (string * CompFn)) : list (string * list string) :=
  omap (λ '(key, fn),
          if (0 <? length (getDeps fn))%nat && negb (String.eqb key proto)
          then Some (key, getDeps fn) else None)
       computed.

(** The two results of the loop of [configComputed], each on its own:
    the registries, and the staged initial values. *)
Fixpoint register (computed : list (string * CompFn)) (inst : Instance) : Instance :=
  match computed with
  | [] => inst
  | (key, value) :: rest =>
      register rest
        (if (0 <? length (getDeps value))%nat
         then mkInstance (assign_entry key value (_computed inst))
                (assign key (getDeps value) (_computedPropDependencies inst))
                (_watchers inst) (_settings inst)
         else inst)
  end.

Fixpoint staged (st : State) (computed : list (string * CompFn)) (computedToAdd : State) : State :=
  match computed with
  | [] => computedToAdd
  | (key, value) :: rest =>
      staged st rest (<[key := apply value (computedToAdd ∪ st)]> computedToAdd)
  end.

(** ** Reading the trace *)

Local Close Scope string_scope.

(** The entries of depth [d], in order. *)
Definition at_depth (d : nat) (evs : list (nat * Event)) : list Event :=
  (filter (λ e, e.1 = d) evs).*2.

(** The [(newValue, oldValue)] pairs the reaction of [propName] was
    called with. *)
Definition watcher_calls (propName : string) (es : list Event) : list (value * value) :=
  omap (λ e, match e with
             | WatcherCalled p n o => if decide (p = propName) then Some (n, o) else None
             | _ => None
             end) es.

Definition is_console (e : Event) : bool :=
  match e with
  | ConsoleGroup _ | ConsoleLog _ _ | ConsoleGroupEnd => true
  | _ => false
  end.

Definition console_calls (es : list Event) : list Event := List.filter is_console es.

Definition is_stage (e : Event) : bool :=
  match e with
  | StageSeen _ => true
  | _ => false
  end.

(** A computation that only appends to the trace, and only entries that
    satisfy [P]. *)
Definition appends {A} (P : nat * Event → Prop) (m : M A) : Prop :=
  ∀ w, ∃ evs, trace (m w).1 = trace w ++ evs ∧ Forall P evs.

(** ... entries of depth [d] or deeper. *)
Definition deeper {A} (d : nat) (m : M A) : Prop := appends (λ e, d ≤ e.1) m.

Definition wants_all (inst : Instance) : bool :=
  bool_decide (logLevel (_settings inst) = Some LogLevel_All).

Definition nonempty (o : State) : bool := (0 <? length (Object_keys o))%nat.

(** Console calls of lines 94-96 and 111-113. *)
Definition commit_events (inst : Instance) (lo : bool) (cur changes : State)
    (uc : option State) : list Event :=
  (if lo then [ConsoleGroup (template (name (_settings inst)) ++ " state changed")%string]
   else [])
  ++ (if lo && wants_all inst then [ConsoleLog "Previous State"%string (Some cur)] else [])
  ++ (if lo then [ConsoleLog "Applying"%string (Some changes)] else [])
  ++ match uc with
     | Some uc =>
         if nonempty uc && lo
         then [ConsoleLog "Updating computed values"%string (Some uc)] else []
     | None => []
     end.

(** Lines 120-124, for one watcher. *)
Definition call_events (lo : bool) (ns cur : State) (propName : string) : list Event :=
  (if lo then [ConsoleLog ("Triggering watcher: " ++ propName)%string None] else [])
  ++ [WatcherCalled propName (ns !!! propName) (cur !!! propName)].

(** Lines 128-129. *)
Definition tail_events (inst : Instance) (lo : bool) (final : State) : list Event :=
  (if lo && wants_all inst then [ConsoleLog "New State"%string (Some final)] else [])
  ++ (if lo then [ConsoleGroupEnd] else []).

(** The watchers whose key is in [newState], in registry order. *)
Definition fired (ns : State) (entries : list (string * Reaction)) : list string :=
  List.filter (includes (Object_keys ns)) entries.*1.

Definition tagged (d : nat) (es : list Event) : list (nat * Event) := (λ e, (d, e)) <$> es.

Local Open Scope string_scope.

(** ** Stores used as examples *)

(** [a + b] on two strings or two numbers. *)
Definition js_plus (a b : value) : value :=
  match a, b with
  | VStr x, VStr y => VStr (x ++ y)
  | VNum x, VNum y => VNum (x + y)
  | _, _ => VUndefined
  end.

Definition ex_full : CompFn :=
  mkCompFn "function(){ return this.first + ' ' + this.last }"
           (λ this, js_plus (js_plus (this !!! "first") (VStr " ")) (this !!! "last")).

(** A computed property that reads only another computed property. *)
Definition ex_greet : CompFn :=
  mkCompFn "function(){ return 'hi ' + this.full }"
           (λ this, js_plus (VStr "hi ") (this !!! "full")).

(** A derivation in which no dependency is found. *)
Definition ex_stamp : CompFn :=
  mkCompFn "function(){ return 'v1' }" (λ _, VStr "v1").

Definition ex_twice : CompFn :=
  mkCompFn "function(){ return this.a + this.a }"
           (λ this, js_plus (this !!! "a") (this !!! "a")).

Definition ex_mixed : CompFn :=
  mkCompFn "function(){ return this['b'] + this.a }"
           (λ this, js_plus (this !!! "b") (this !!! "a")).

(** [this.x] in a string literal, in a comment, and as the target of an
    assignment: none of the three reads the property [x]. *)
Definition ex_in_literal : CompFn :=
  mkCompFn "function(){ return 'this.x' }" (λ _, VStr "this.x").

Definition ex_in_comment : CompFn :=
  mkCompFn "function(){ /* this.x */ return 1 }" (λ _, VNum 1).

Definition ex_assigned : CompFn :=
  mkCompFn "function(){ this.x = 1; return this.y }" (λ this, this !!! "y").

Definition ex_names : State := {[ "first" := VStr "Ada"; "last" := VStr "Lovelace" ]}.

Definition ex_addons : IAddons :=
  mkAddons (Some [("full", ex_full); ("greet", ex_greet)]) None None None.

Definition ex_settings (level : string) : IAddonsSettings :=
  mkSettings (Some "MyStore") (Some level).

(** A store with one watcher on [count] and nothing else. *)
Definition ex_counter : Instance :=
  mkInstance ∅ [] [("count", λ _ _, Ret)] (ex_settings LogLevel_None).

(** Three watchers; the one on [b] raises. *)
Definition ex_raising : Instance :=
  mkInstance ∅ []
    [("a", λ _ _, Ret); ("b", λ _ _, Raise "boom"); ("c", λ _ _, Ret)]
    (ex_settings LogLevel_None).

Definition ex_logging : Instance := mkInstance ∅ [] [] (ex_settings LogLevel_All).

(** The registries [configComputed] builds for [ex_addons]. *)
Definition ex_computed : Instance :=
  mkInstance {[ "full" := ex_full; "greet" := ex_greet ]}
    [("full", ["first"; "last"]); ("greet", ["full"])] [] (ex_settings LogLevel_None).


(** The state of the store built from [ex_names] and [ex_addons]. *)
Definition ex_before : State :=
  {[ "first" := VStr "Ada"; "last" := VStr "Lovelace";
     "full" := VStr "Ada Lovelace"; "greet" := VStr "hi Ada Lovelace" ]}.

Definition ex_write_first : PartialState := Plain {[ "first" := VStr "Grace" ]}.

Definition ex_after : State :=
  {[ "first" := VStr "Grace"; "last" := VStr "Lovelace";
     "full" := VStr "Grace Lovelace"; "greet" := VStr "hi Ada Lovelace" ]}.

Definition ex_count_one : State := {[ "count" := VNum 1 ]}.

Definition ex_abc : State := {[ "a" := VNum 1; "b" := VNum 2; "c" := VNum 3 ]}.

Definition ex_three : list (string * CompFn) :=
  [("full", ex_full); ("stamp", ex_stamp); ("greet", ex_greet)].

Definition ex_empty : Instance := mkInstance ∅ [] [] (ex_settings LogLevel_None).

(** What a write of [ex_count_one] on the empty [ex_logging] store
    leaves on the trace. *)
Definition ex_logged : list (nat * Event) :=
  [(0, ConsoleGroup "MyStore state changed");
   (0, ConsoleLog "Previous State" (Some ∅));
   (0, ConsoleLog "Applying" (Some ex_count_one));
   (0, ConsoleLog "New State" (Some ex_count_one));
   (0, ConsoleGroupEnd)]%nat.

(** A watcher that writes the key it watches. *)
Definition ex_loop : Instance :=
  mkInstance ∅ []
    [("count", λ n _, CallSet (Plain {[ "count" := n ]}) None Ret)]
    (ex_settings LogLevel_None).

(** [ex_computed] with a watcher on the computed [full]; the reaction
    raises. *)
Definition ex_watched : Instance :=
  mkInstance (_computed ex_computed) (_computedPropDependencies ex_computed)
    [("full", λ _ _, Raise "called")] (_settings ex_computed).

(** Add-ons with a computed [full] and a watcher on it that raises when
    it is called. *)
Definition ex_watched_addons : IAddons :=
  mkAddons (Some [("full", ex_full)]) (Some [("full", λ _ _, Raise "called")]) None None.

(** A reaction that reads the store and writes what it saw. *)
Definition ex_reader (st : State) : Script :=
  CallSet (Plain {[ "seen" := st !!! "c" ]}) None Ret.

Definition ex_three_addons : IAddons := mkAddons (Some ex_three) None None None.




(** ** Vocabulary of the further properties *)

(** [s.includes(p)] *)
Fixpoint occurs (p s : string) : bool :=
  match strip_prefix p s with
  | Some _ => true
  | None =>
      match s with
      | String _ s' => occurs p s'
      | EmptyString => false
      end
  end.

(** Every character of [s] is a [\w]. *)
Fixpoint all_word (s : string) : bool :=
  match s with
  | String c s' => is_word c && all_word s'
  | EmptyString => true
  end.

(** The number of commas in [s]. *)
Fixpoint count_commas (s : string) : nat :=
  match s with
  | String c s' => (if Ascii.eqb c "," then 1 else 0) + count_commas s'
  | EmptyString => 0
  end.

(** Every character of [s] is white space. *)
Fixpoint all_space (s : string) : bool :=
  match s with
  | String c s' => is_space c && all_space s'
  | EmptyString => true
  end.

Definition head_char (s : string) : option ascii :=
  match s with
  | String c _ => Some c
  | EmptyString => None
  end.

Fixpoint last_char (s : string) : option ascii :=
  match s with
  | String c s' =>
      match s' with
      | EmptyString => Some c
      | String _ _ => last_char s'
      end
  | EmptyString => None
  end.

(** Every entry of [_computedPropDependencies] has its function in
    [_computed]. *)
Definition consistent (inst : Instance) : Prop :=
  ∀ name, name ∈ (_computedPropDependencies inst).*1 → is_Some (_computed inst !! name).

(** A computation that takes no key out of the store. *)
Definition keeps_keys {A} (m : M A) : Prop :=
  ∀ w k, is_Some (store w !! k) → is_Some (store (m w).1 !! k).

Definition is_watcher_call (e : Event) : bool :=
  match e with
  | WatcherCalled _ _ _ => true
  | _ => false
  end.

(** The registries [createStore] starts from: empty, with the settings
    of the add-ons or their defaults (lines 64-70). *)
Definition initial_registries (addons : option IAddons) : Instance :=
  mkInstance ∅ [] []
    (mkSettings (Some (default "MyStore" ((addons ≫= settings) ≫= name)))
                (Some (default LogLevel_None ((addons ≫= settings) ≫= logLevel)))).

(** * Properties *)

Local Close Scope string_scope.

(** ** Running computations *)

Lemma run_bind {A B} (m : M A) (f : A → M B) (w : World) :
  (m ≫= f) w =
  match m w with
  | (w', Done a) => f a w'
  | (w', Raised e) => (w', Raised e)
  | (w', OutOfFuel) => (w', OutOfFuel)
  end.
Proof. reflexivity. Qed.

Lemma run_ret {A} (a : A) w : (mret a : M A) w = (w, Done a).
Proof. reflexivity. Qed.

Lemma run_emit d e w : emit d e w = (mkWorld (store w) (trace w ++ [(d, e)]), Done tt).
Proof. reflexivity. Qed.

(** ** Events of one write call *)

Lemma at_depth_app d evs1 evs2 : at_depth d (evs1 ++ evs2) = at_depth d evs1 ++ at_depth d evs2.
Proof. unfold at_depth. by rewrite filter_app, fmap_app. Qed.

Lemma at_depth_here d es : at_depth d ((λ e, (d, e)) <$> es) = es.
Proof.
  unfold at_depth. induction es as [|e es IH]; [done|].
  cbn [fmap list_fmap]. rewrite filter_cons_True by done. cbn. by f_equal.
Qed.

Lemma at_depth_deeper d evs : Forall (λ e, d < e.1) evs → at_depth d evs = [].
Proof.
  unfold at_depth. induction 1 as [|e evs He _ IH]; [done|].
  rewrite filter_cons_False by lia. done.
Qed.

Lemma watcher_calls_app p es1 es2 :
  watcher_calls p (es1 ++ es2) = watcher_calls p es1 ++ watcher_calls p es2.
Proof. unfold watcher_calls. apply omap_app. Qed.

Lemma console_calls_app es1 es2 :
  console_calls (es1 ++ es2) = console_calls es1 ++ console_calls es2.
Proof. unfold console_calls. apply List.filter_app. Qed.

Section Appends.
Context (P : nat * Event → Prop).

Lemma appends_ret {A} (a : A) : appends P (mret a : M A).
Proof. intros w. exists []. by rewrite app_nil_r. Qed.

Lemma appends_throw {A} e : appends P (throw e : M A).
Proof. intros w. exists []. by rewrite app_nil_r. Qed.

Lemma appends_getState : appends P getState.
Proof. intros w. exists []. by rewrite app_nil_r. Qed.

Lemma appends_emit d e : P (d, e) → appends P (emit d e).
Proof. intros HP w. exists [(d, e)]. split; [done|]. by constructor. Qed.

Lemma appends_zustand partial replace : appends P (zustand_setState partial replace).
Proof. intros w. exists []. by rewrite app_nil_r. Qed.

Lemma appends_bind {A B} (m : M A) (f : A → M B) :
  appends P m → (∀ a, appends P (f a)) → appends P (m ≫= f).
Proof.
  intros Hm Hf w. rewrite run_bind. destruct (Hm w) as (evs & Ht & Hall).
  destruct (m w) as [w' [a| |]]; cbn in Ht; [|by eauto..].
  destruct (Hf a w') as (evs' & Ht' & Hall').
  exists (evs ++ evs'). rewrite Ht', Ht, app_assoc. split; [done|].
  by apply Forall_app.
Qed.

Lemma appends_when cond (effect : M unit) : appends P effect → appends P (when cond effect).
Proof. destruct cond; [done|]. intros _. apply appends_ret. Qed.

Lemma appends_runScript apiSetState s :
  (∀ partial setSettings, appends P (apiSetState partial setSettings)) →
  appends P (runScript apiSetState s).
Proof.
  intros Hset. induction s as [| e | partial setSettings next IH | next IH]; cbn.
  - apply appends_ret.
  - apply appends_throw.
  - apply appends_bind; [apply Hset | done].
  - apply appends_bind; [apply appends_getState | done].
Qed.

Lemma appends_callWatcher d apiSetState lo ns cur entry :
  (∀ e, is_stage e = false → P (d, e)) →
  (∀ partial setSettings, appends P (apiSetState partial setSettings)) →
  appends P (callWatcher apiSetState d lo ns cur entry).
Proof.
  intros HP Hset. destruct entry as [propName fn]. unfold callWatcher.
  apply appends_bind; [by apply appends_when, appends_emit, HP | intros _].
  apply appends_bind; [by apply appends_emit, HP | intros _].
  by apply appends_runScript.
Qed.

Lemma appends_dispatchWatchers d apiSetState lo ns cur entries :
  (∀ e, is_stage e = false → P (d, e)) →
  (∀ partial setSettings, appends P (apiSetState partial setSettings)) →
  appends P (dispatchWatchers apiSetState d lo ns cur entries).
Proof.
  intros HP Hset. induction entries as [|entry rest IH]; cbn [dispatchWatchers].
  - apply appends_ret.
  - apply appends_bind; [|done].
    destruct (includes _ _); [by apply appends_callWatcher | apply appends_ret].
Qed.

Lemma appends_commitPhase d inst args :
  (∀ e, is_stage e = false → P (d, e)) →
  appends P (commitPhase inst d args zustand_setState).
Proof.
  intros HP. destruct args as [partialState setSettings]. unfold commitPhase.
  apply appends_bind; [apply appends_getState | intros currentState].
  apply appends_bind; [by apply appends_when, appends_emit, HP | intros _].
  apply appends_bind; [by apply appends_when, appends_emit, HP | intros _].
  apply appends_bind; [by apply appends_when, appends_emit, HP | intros _].
  destruct (recompute _ _ _ _ _); [|apply appends_throw].
  apply appends_bind; [by apply appends_when, appends_when, appends_emit, HP | intros _].
  apply appends_bind; [apply appends_zustand | intros _]. apply appends_ret.
Qed.

Lemma appends_setMiddleware d inst apiSetState args :
  (∀ e, is_stage e = false → P (d, e)) →
  (∀ partial setSettings, appends P (apiSetState partial setSettings)) →
  appends P (setMiddleware inst apiSetState d args zustand_setState).
Proof.
  intros HP Hset. unfold setMiddleware.
  apply appends_bind; [by apply appends_commitPhase | intros [[newState currentState] lo]].
  apply appends_bind; [by apply appends_dispatchWatchers | intros _].
  apply appends_bind; [|intros _; by apply appends_when, appends_emit, HP].
  apply appends_when, appends_bind; [apply appends_getState | intros st].
  by apply appends_emit, HP.
Qed.

(** Every write through [setState], the writes of reactions within it
    included. *)
Lemma appends_setState fuel inst d partial setSettings :
  (∀ d' e, d ≤ d' → is_stage e = false → P (d', e)) →
  appends P (setState fuel inst zustand_setState d partial setSettings).
Proof.
  revert d partial setSettings.
  induction fuel as [|fuel IH]; intros d partial setSettings HP; cbn [setState].
  - intros w. exists []. by rewrite app_nil_r.
  - apply appends_setMiddleware; [intros e; by apply HP|].
    intros p ss. apply IH. intros d' e Hd. apply HP. lia.
Qed.
End Appends.

Lemma deeper_runScript d apiSetState s :
  (∀ partial setSettings, deeper d (apiSetState partial setSettings)) →
  deeper d (runScript apiSetState s).
Proof. apply appends_runScript. Qed.

Lemma deeper_setState fuel inst d partial setSettings :
  deeper d (setState fuel inst zustand_setState d partial setSettings).
Proof. apply appends_setState. intros d' e Hd _. exact Hd. Qed.

(** ** What one write call appends to the trace *)

Lemma commitPhase_run inst d partialState setSettings w :
  let lo := logOperationsOf (_settings inst) setSettings in
  let cur := store w in
  let changes := resolve partialState cur in
  let uc := recompute (_computed inst) cur changes (_computedPropDependencies inst) ∅ in
  commitPhase inst d (partialState, setSettings) zustand_setState w =
  match uc with
  | Some updatedComputed =>
      (mkWorld ((updatedComputed ∪ changes) ∪ cur)
         (trace w ++ tagged d (commit_events inst lo cur changes uc)),
       Done (updatedComputed ∪ changes, cur, lo))
  | None =>
      (mkWorld cur (trace w ++ tagged d (commit_events inst lo cur changes uc)),
       Raised "TypeError"%string)
  end.
Proof.
  destruct w as [st tr]. cbn zeta. cbn [store trace].
  unfold commitPhase, commit_events, wants_all, nonempty, tagged.
  rewrite run_bind. cbn [getState store trace].
  destruct (recompute _ _ _ _ _) as [updatedComputed|];
    destruct (logOperationsOf _ _); destruct (bool_decide _);
    try destruct (0 <? _)%nat;
    cbv [mbind M_bind mret M_ret emit when zustand_setState throw resolve
         store trace andb];
    cbn [fmap list_fmap app]; rewrite <- ?app_assoc, ?app_nil_r; reflexivity.
Qed.

Lemma callWatcher_unfold apiSetState d lo ns cur propName fn w :
  callWatcher apiSetState d lo ns cur (propName, fn) w =
  runScript apiSetState (fn (ns !!! propName) (cur !!! propName))
    (mkWorld (store w) (trace w ++ tagged d (call_events lo ns cur propName))).
Proof.
  destruct w as [st tr]. unfold callWatcher, call_events, tagged.
  destruct lo;
    cbv [mbind M_bind mret M_ret emit when store trace];
    cbn [fmap list_fmap app]; rewrite <- ?app_assoc; reflexivity.
Qed.

Lemma at_depth_tagged d es : at_depth d (tagged d es) = es.
Proof. apply at_depth_here. Qed.

Lemma callWatcher_run apiSetState d lo ns cur propName fn w w' out :
  (∀ partial setSettings, deeper (S d) (apiSetState partial setSettings)) →
  callWatcher apiSetState d lo ns cur (propName, fn) w = (w', out) →
  ∃ evs, trace w' = trace w ++ evs ∧ Forall (λ e, d ≤ e.1) evs
         ∧ at_depth d evs = call_events lo ns cur propName.
Proof.
  intros Hset Hrun. rewrite callWatcher_unfold in Hrun.
  destruct (deeper_runScript (S d) apiSetState
              (fn (ns !!! propName) (cur !!! propName)) Hset
              (mkWorld (store w) (trace w ++ tagged d (call_events lo ns cur propName))))
    as (evs & Ht & Hall).
  rewrite Hrun in Ht. cbn in Ht.
  exists (tagged d (call_events lo ns cur propName) ++ evs).
  rewrite Ht, <- app_assoc. split; [done|]. split.
  - apply Forall_app. split.
    + unfold tagged. apply Forall_fmap, Forall_true. cbn. lia.
    + eapply Forall_impl; [done|]. cbn. lia.
  - rewrite at_depth_app, at_depth_tagged, at_depth_deeper, app_nil_r; [done|].
    eapply Forall_impl; [done|]. cbn. lia.
Qed.

Lemma dispatchWatchers_run apiSetState d lo ns cur entries w w' out :
  (∀ partial setSettings, deeper (S d) (apiSetState partial setSettings)) →
  dispatchWatchers apiSetState d lo ns cur entries w = (w', out) →
  ∃ evs called,
    trace w' = trace w ++ evs
    ∧ Forall (λ e, d ≤ e.1) evs
    ∧ called `prefix_of` fired ns entries
    ∧ at_depth d evs = flat_map (call_events lo ns cur) called
    ∧ (out = Done tt → called = fired ns entries).
Proof.
  intros Hset. revert w.
  induction entries as [|[propName fn] rest IH]; intros w Hrun.
  - cbn in Hrun. injection Hrun as <- <-. exists [], [].
    rewrite app_nil_r. by repeat split.
  - cbn [dispatchWatchers] in Hrun. rewrite run_bind in Hrun. cbn [fst] in Hrun.
    unfold fired. cbn [fmap list_fmap fst List.filter].
    fold (fired ns rest).
    destruct (includes (Object_keys ns) propName) eqn:Hinc.
    + destruct (callWatcher apiSetState d lo ns cur (propName, fn) w)
        as [w1 out1] eqn:Hcall.
      destruct (callWatcher_run _ _ _ _ _ _ _ _ _ _ Hset Hcall) as (evs1 & Ht1 & Hall1 & Hd1).
      destruct out1 as [[]| e |].
      * destruct (IH _ Hrun) as (evs2 & called & Ht2 & Hall2 & Hpre & Hd2 & Hdone).
        exists (evs1 ++ evs2), (propName :: called).
        rewrite Ht2, Ht1, app_assoc. split; [done|].
        split; [by apply Forall_app|].
        split; [by apply prefix_cons|].
        split; [|intros Ho; by rewrite Hdone].
        rewrite at_depth_app, Hd1, Hd2. done.
      * injection Hrun as <- <-. exists evs1, [propName].
        split; [done|]. split; [done|].
        split; [apply prefix_cons, prefix_nil|].
        split; [|done]. cbn. by rewrite app_nil_r.
      * injection Hrun as <- <-. exists evs1, [propName].
        split; [done|]. split; [done|].
        split; [apply prefix_cons, prefix_nil|].
        split; [|done]. cbn. by rewrite app_nil_r.
    + rewrite run_ret in Hrun. by apply IH.
Qed.

Lemma tail_run inst d lo w :
  (when (lo && bool_decide (logLevel (_settings inst) = Some LogLevel_All))
     (st ← getState; emit d (ConsoleLog "New State"%string (Some st)));;
   when lo (emit d ConsoleGroupEnd)) w =
  (mkWorld (store w) (trace w ++ tagged d (tail_events inst lo (store w))), Done tt).
Proof.
  destruct w as [st tr]. unfold tail_events, wants_all, tagged.
  destruct lo; destruct (bool_decide _);
    cbv [mbind M_bind mret M_ret emit when getState store trace andb];
    cbn [fmap list_fmap app]; rewrite <- ?app_assoc, ?app_nil_r; reflexivity.
Qed.

(** One call of [setState], start to end: the console calls of the
    commit phase, then the reactions called (a prefix of the watchers
    that fire; all of them when the call returns), then the closing
    console calls when it returns. *)
Lemma setState_run fuel inst d partialState setSettings w w' out :
  setState (S fuel) inst zustand_setState d partialState setSettings w = (w', out) →
  let lo := logOperationsOf (_settings inst) setSettings in
  let cur := store w in
  let changes := resolve partialState cur in
  match recompute (_computed inst) cur changes (_computedPropDependencies inst) ∅ with
  | None =>
      out = Raised "TypeError"%string
      ∧ w' = mkWorld cur (trace w ++ tagged d (commit_events inst lo cur changes None))
  | Some uc =>
      let ns := uc ∪ changes in
      ∃ evs called,
        trace w' = trace w ++ evs
        ∧ called `prefix_of` fired ns (_watchers inst)
        ∧ at_depth d evs =
            commit_events inst lo cur changes (Some uc)
            ++ flat_map (call_events lo ns cur) called
            ++ match out with
               | Done _ => tail_events inst lo (store w')
               | _ => []
               end
        ∧ (out = Done tt → called = fired ns (_watchers inst))
  end.
Proof.
  intros Hrun. cbn zeta. cbn [setState] in Hrun. unfold setMiddleware in Hrun.
  rewrite run_bind, commitPhase_run in Hrun.
  destruct (recompute _ _ _ _ _) as [uc|].
  - cbn beta iota in Hrun. rewrite run_bind in Hrun.
    set (wc := mkWorld _ _) in Hrun.
    destruct (dispatchWatchers _ d _ (uc ∪ _) (store w) (_watchers inst) wc)
      as [w2 out2] eqn:Hdisp.
    destruct (dispatchWatchers_run _ _ _ _ _ _ _ _ _
                (deeper_setState fuel inst (S d)) Hdisp)
      as (evs2 & called & Ht2 & _ & Hpre & Hd2 & Hall).
    subst wc. cbn [trace] in Ht2.
    destruct out2 as [[]| e |].
    + rewrite tail_run in Hrun. injection Hrun as <- <-. cbn [store trace].
      eexists _, called. rewrite Ht2, <- !app_assoc. split; [reflexivity|].
      split; [done|]. split; [|done].
      by rewrite !at_depth_app, !at_depth_tagged, Hd2.
    + injection Hrun as <- <-.
      eexists _, called. rewrite Ht2, <- !app_assoc. split; [reflexivity|].
      split; [done|]. split; [|done].
      by rewrite !at_depth_app, !at_depth_tagged, Hd2, app_nil_r.
    + injection Hrun as <- <-.
      eexists _, called. rewrite Ht2, <- !app_assoc. split; [reflexivity|].
      split; [done|]. split; [|done].
      by rewrite !at_depth_app, !at_depth_tagged, Hd2, app_nil_r.
  - injection Hrun as <- <-. done.
Qed.

(** ** Watcher dispatch *)

Lemma includes_keys (o : State) (k : string) :
  includes (Object_keys o) k = true ↔ is_Some (o !! k).
Proof.
  unfold includes, Object_keys. rewrite bool_decide_eq_true, list_elem_of_fmap.
  split.
  - intros ([k' v] & -> & Hin). apply elem_of_map_to_list in Hin. by exists v.
  - intros [v Hv]. exists (k, v). split; [done|]. by apply elem_of_map_to_list.
Qed.

Lemma elem_of_fired ns entries k :
  k ∈ fired ns entries ↔ k ∈ entries.*1 ∧ is_Some (ns !! k).
Proof.
  unfold fired. rewrite !list_elem_of_In, List.filter_In, includes_keys. done.
Qed.


Lemma watcher_calls_console p es :
  Forall (λ e, is_console e = true) es → watcher_calls p es = [].
Proof.
  induction 1 as [|e es He _ IH]; [done|].
  unfold watcher_calls in *. cbn [omap list_omap]. rewrite IH.
  by destruct e.
Qed.

Lemma commit_events_console inst lo cur changes uc :
  Forall (λ e, is_console e = true) (commit_events inst lo cur changes uc).
Proof.
  unfold commit_events.
  destruct lo, (wants_all inst), uc as [uc|]; try destruct (nonempty uc);
    cbn; repeat constructor.
Qed.

Lemma tail_events_console inst lo final :
  Forall (λ e, is_console e = true) (tail_events inst lo final).
Proof.
  unfold tail_events. destruct lo, (wants_all inst); cbn; repeat constructor.
Qed.

Lemma watcher_calls_call_events p lo ns cur q :
  watcher_calls p (call_events lo ns cur q) =
  if decide (q = p) then [(ns !!! q, cur !!! q)] else [].
Proof. unfold call_events. destruct lo; cbn; by destruct (decide (q = p)). Qed.

Lemma watcher_calls_absent p lo ns cur called :
  p ∉ called → watcher_calls p (flat_map (call_events lo ns cur) called) = [].
Proof.
  induction called as [|q called IH]; [done|].
  intros Hnot. apply not_elem_of_cons in Hnot as [Hne Hnot].
  cbn [flat_map]. rewrite watcher_calls_app, watcher_calls_call_events, IH by done.
  by rewrite decide_False.
Qed.



Lemma dispatchWatchers_app apiSetState d lo ns cur ws1 ws2 w :
  dispatchWatchers apiSetState d lo ns cur (ws1 ++ ws2) w =
  (dispatchWatchers apiSetState d lo ns cur ws1;;
   dispatchWatchers apiSetState d lo ns cur ws2) w.
Proof.
  revert w. induction ws1 as [|entry ws1 IH]; intros w; [done|].
  cbn [app dispatchWatchers]. rewrite !run_bind.
  destruct (includes (Object_keys ns) entry.1).
  - destruct (callWatcher apiSetState d lo ns cur entry w) as [w1 [[]| |]]; [|done..].
    rewrite IH, run_bind. done.
  - rewrite run_ret, IH, run_bind. done.
Qed.

Lemma returns_runScript apiSetState s w :
  returns s → runScript apiSetState s w = (w, Done tt).
Proof.
  revert w. induction s as [| e | partial setSettings next IH | next IH];
    intros w Hret; cbn in *; [done..|].
  rewrite run_bind. cbn. by apply IH.
Qed.

Lemma returns_dispatchWatchers apiSetState d lo ns cur entries w :
  (∀ propName (fn : Reaction) n o, (propName, fn) ∈ entries → returns (fn n o)) →
  ∃ w', dispatchWatchers apiSetState d lo ns cur entries w = (w', Done tt).
Proof.
  revert w. induction entries as [|[propName fn] rest IH]; intros w Hret; [by eexists|].
  cbn [dispatchWatchers]. rewrite run_bind. cbn [fst].
  assert (∀ w1, ∃ w', dispatchWatchers apiSetState d lo ns cur rest w1 = (w', Done tt))
    as Hrest.
  { intros w1. apply IH. intros p f n o Hin. apply (Hret p). by right. }
  destruct (includes (Object_keys ns) propName).
  - rewrite callWatcher_unfold, returns_runScript; [apply Hrest|].
    apply (Hret propName). by left.
  - rewrite run_ret. apply Hrest.
Qed.


(** ** Logging *)

Lemma console_calls_commit_off inst cur changes uc :
  console_calls (commit_events inst false cur changes uc) = [].
Proof. unfold commit_events. destruct uc as [uc|]; [|done]. by rewrite andb_false_r. Qed.

Lemma console_calls_calls_off ns cur called :
  console_calls (flat_map (call_events false ns cur) called) = [].
Proof. induction called as [|p called IH]; [done|]. cbn. exact IH. Qed.

Lemma logOperationsOf_spec settings setSettings :
  logOperationsOf settings setSettings =
  negb (truthy (optional_chain setSettings "excludeInLogs"%string))
  && negb (bool_decide (logLevel settings = Some LogLevel_None)).
Proof. unfold logOperationsOf. by destruct (truthy (optional_chain _ _)). Qed.

(** The console calls a write call makes itself are none when
    [logOperations] is false, and start with [console.group] when it is
    true. *)
Lemma console_calls_of_write fuel inst d partialState setSettings w w' out :
  setState (S fuel) inst zustand_setState d partialState setSettings w = (w', out) →
  ∃ evs,
    trace w' = trace w ++ evs
    ∧ (console_calls (at_depth d evs) ≠ []
       ↔ logOperationsOf (_settings inst) setSettings = true).
Proof.
  intros Hrun. apply setState_run in Hrun. cbn zeta in Hrun.
  destruct (recompute _ _ _ _ _) as [uc|].
  - destruct Hrun as (evs & called & Ht & _ & Hd & _).
    exists evs. split; [done|]. rewrite Hd, !console_calls_app.
    destruct (logOperationsOf _ _).
    + split; [done|]. intros _. unfold commit_events. cbn. congruence.
    + rewrite console_calls_commit_off, console_calls_calls_off.
      destruct out; cbn; split; congruence.
  - destruct Hrun as [_ ->]. eexists. split; [reflexivity|].
    rewrite at_depth_tagged. destruct (logOperationsOf _ _).
    + split; [done|]. intros _. unfold commit_events. cbn. congruence.
    + rewrite console_calls_commit_off. split; congruence.
Qed.

(** C8, amended.  The key the code reads is [excludeInLogs]: a write
    whose options carry a truthy [excludeInLogs] makes no console call of
    its own whatever the log level; any other write (one with
    [excludeFromLog: true] included) logs exactly when the log level is
    not [none]. *)
Theorem logging_suppressed_by_excludeInLogs
    fuel inst d partialState setSettings w w' out :
  setState (S fuel) inst zustand_setState d partialState setSettings w = (w', out) →
  ∃ evs,
    trace w' = trace w ++ evs
    ∧ (truthy (optional_chain setSettings "excludeInLogs"%string) = true →
       console_calls (at_depth d evs) = [])
    ∧ (truthy (optional_chain setSettings "excludeInLogs"%string) = false →
       (console_calls (at_depth d evs) ≠ []
        ↔ logLevel (_settings inst) ≠ Some LogLevel_None)).
Proof.
  intros Hrun. destruct (console_calls_of_write _ _ _ _ _ _ _ _ Hrun) as (evs & Ht & Hlog).
  exists evs. split; [done|]. rewrite logOperationsOf_spec in Hlog. split.
  - intros Hex. rewrite Hex in Hlog. cbn in Hlog.
    destruct (console_calls (at_depth d evs)); [done|].
    assert (false = true) by (apply Hlog; done). done.
  - intros Hex. rewrite Hex in Hlog. cbn in Hlog. rewrite Hlog.
    rewrite negb_true_iff, bool_decide_eq_false. done.
Qed.

(** ** A reaction that raises *)

Lemma read_only_store apiSetState s w :
  read_only s → store (runScript apiSetState s w).1 = store w.
Proof.
  revert w. induction s as [| e | partial setSettings next IH | next IH];
    intros w Hro; cbn in *; [done..|].
  rewrite run_bind. cbn. by apply IH.
Qed.

Lemma read_only_callWatcher apiSetState d lo ns cur propName (fn : Reaction) w :
  read_only (fn (ns !!! propName) (cur !!! propName)) →
  store (callWatcher apiSetState d lo ns cur (propName, fn) w).1 = store w.
Proof. intros Hro. rewrite callWatcher_unfold, read_only_store; done. Qed.

Lemma read_only_dispatchWatchers apiSetState d lo ns cur entries w :
  (∀ propName (fn : Reaction) n o, (propName, fn) ∈ entries → read_only (fn n o)) →
  store (dispatchWatchers apiSetState d lo ns cur entries w).1 = store w.
Proof.
  revert w. induction entries as [|[propName fn] rest IH]; intros w Hro; [done|].
  cbn [dispatchWatchers]. rewrite run_bind. cbn [fst].
  assert (∀ w1, store (dispatchWatchers apiSetState d lo ns cur rest w1).1 = store w1)
    as Hrest.
  { intros w1. apply IH. intros p f n o Hin. apply (Hro p). by right. }
  destruct (includes (Object_keys ns) propName).
  - assert (store (callWatcher apiSetState d lo ns cur (propName, fn) w).1 = store w)
      as Hhead by (apply read_only_callWatcher, (Hro propName); by left).
    destruct (callWatcher apiSetState d lo ns cur (propName, fn) w) as [w1 [[]| |]];
      cbn [fst] in Hhead |- *; [|done..].
    by rewrite Hrest.
  - rewrite run_ret. apply Hrest.
Qed.

(** C6.  The registry is [ws1 ++ (K, r) :: ws2], the write commits a
    [newState] that has [K], the reactions before [K] return and the
    reaction of [K] raises [e]: the write call ends in [e] in the very
    world the reaction raised in, no watcher after [K] has been called,
    and the commit stands: the store is [newState] over the old state
    when the reactions that ran did not write themselves. *)
Theorem watcher_failure_propagates
    fuel inst d partialState setSettings w ws1 K r ws2 newState cur lo wc w1 w2 e :
  _watchers inst = ws1 ++ (K, r) :: ws2 →
  NoDup (_watchers inst).*1 →
  commitPhase inst d (partialState, setSettings) zustand_setState w
    = (wc, Done (newState, cur, lo)) →
  is_Some (newState !! K) →
  dispatchWatchers (setState fuel inst zustand_setState (S d)) d lo newState cur ws1 wc
    = (w1, Done tt) →
  callWatcher (setState fuel inst zustand_setState (S d)) d lo newState cur (K, r) w1
    = (w2, Raised e) →
  setState (S fuel) inst zustand_setState d partialState setSettings w = (w2, Raised e)
  ∧ (∃ evs, trace w2 = trace w ++ evs
            ∧ ∀ K', K' ∈ ws2.*1 → watcher_calls K' (at_depth d evs) = [])
  ∧ store wc = newState ∪ store w
  ∧ ((∀ propName (fn : Reaction) n o,
        (propName, fn) ∈ ws1 ++ [(K, r)] → read_only (fn n o)) →
     store w2 = newState ∪ store w).
Proof.
  intros Hreg Hnd Hcommit HK Hdisp Hcall.
  pose proof (deeper_setState fuel inst (S d)) as Hset.
  assert (setState (S fuel) inst zustand_setState d partialState setSettings w
          = (w2, Raised e)) as Hrun.
  { cbn [setState]. unfold setMiddleware. rewrite run_bind, Hcommit.
    cbn beta iota. rewrite Hreg, run_bind, dispatchWatchers_app, run_bind, Hdisp.
    cbn [dispatchWatchers]. rewrite run_bind. cbn [fst].
    apply includes_keys in HK. rewrite HK, Hcall. done. }
  split; [done|].
  rewrite commitPhase_run in Hcommit. cbn zeta in Hcommit.
  destruct (recompute _ _ _ _ _) as [uc|] eqn:Huc; [|done].
  injection Hcommit as <- <- <- <-.
  set (ns := uc ∪ resolve partialState (store w)) in *.
  set (lo := logOperationsOf (_settings inst) setSettings) in *.
  destruct (dispatchWatchers_run _ _ _ _ _ _ _ _ _ Hset Hdisp)
    as (evs1 & called & Ht1 & _ & Hpre & Hd1 & _).
  destruct (callWatcher_run _ _ _ _ _ _ _ _ _ _ Hset Hcall) as (evs2 & Ht2 & _ & Hd2).
  cbn [trace store] in *.
  split; [|split; [done|]].
  - eexists. rewrite Ht2, Ht1, <- !app_assoc. split; [reflexivity|].
    intros K' HK'. rewrite !at_depth_app, at_depth_tagged, Hd1, Hd2, !watcher_calls_app.
    rewrite (watcher_calls_console _ _ (commit_events_console _ _ _ _ _)).
    rewrite Hreg, fmap_app, fmap_cons in Hnd. cbn [fst] in Hnd.
    apply NoDup_app in Hnd as (_ & Hdisj & Hnd2). apply NoDup_cons in Hnd2 as [HK2 _].
    rewrite watcher_calls_absent, watcher_calls_call_events.
    + rewrite decide_False; [done|]. intros <-. done.
    + intros Hin. destruct Hpre as [k Hk].
      assert (K' ∈ fired ns ws1) as Hf by (rewrite Hk; apply elem_of_app; by left).
      apply elem_of_fired in Hf as [Hin1 _].
      apply (Hdisj K' Hin1). by right.
  - intros Hro.
    pose proof (read_only_callWatcher (setState fuel inst zustand_setState (S d))
                  d lo ns (store w) K r w1) as H2.
    rewrite Hcall in H2. cbn [fst] in H2. rewrite H2.
    + pose proof (read_only_dispatchWatchers (setState fuel inst zustand_setState (S d))
                    d lo ns (store w) ws1
                    (mkWorld (ns ∪ store w)
                       (trace w ++ tagged d (commit_events inst lo (store w)
                                               (resolve partialState (store w)) (Some uc)))))
        as H1.
      rewrite Hdisp in H1. cbn [fst store] in H1. rewrite H1; [done|].
      intros p f n o Hin. apply (Hro p). apply elem_of_app. by left.
    + apply (Hro K). apply elem_of_app. right. by left.
Qed.

(** ** The recomputation pass *)

Lemma needs_recompute_touched changes deps :
  (0 <? length (intersection (Object_keys changes) deps))%nat = true ↔ touched changes deps.
Proof.
  unfold intersection, touched. rewrite Nat.ltb_lt. split.
  - intros Hlen. destruct (List.filter _ deps) as [|k l] eqn:Hf; [cbn in Hlen; lia|].
    assert (In k (List.filter (includes (Object_keys changes)) deps)) as Hin
      by (rewrite Hf; by left).
    apply List.filter_In in Hin as [Hin Hinc].
    exists k. split; [by apply list_elem_of_In | by apply includes_keys].
  - intros (k & Hin & Hsome).
    assert (In k (List.filter (includes (Object_keys changes)) deps)) as Hf.
    { apply List.filter_In. split; [by apply list_elem_of_In | by apply includes_keys]. }
    destruct (List.filter _ deps); [done | cbn; lia].
Qed.

Lemma needs_recompute_untouched changes deps :
  (0 <? length (intersection (Object_keys changes) deps))%nat = false ↔ ¬ touched changes deps.
Proof. rewrite <- needs_recompute_touched. symmetry. apply not_true_iff_false. Qed.

Lemma recompute_app computed cur changes pre post acc :
  recompute computed cur changes (pre ++ post) acc =
  recompute computed cur changes pre acc ≫= recompute computed cur changes post.
Proof.
  revert acc. induction pre as [|[name deps] pre IH]; intros acc; [done|].
  cbn [app recompute]. destruct (0 <? _)%nat; [|apply IH].
  destruct (computed !! name) as [fn|]; [|done]. cbn. apply IH.
Qed.

(** An entry is only ever written under its own name. *)
Lemma recompute_other computed cur changes entries acc uc k :
  recompute computed cur changes entries acc = Some uc →
  k ∉ entries.*1 → uc !! k = acc !! k.
Proof.
  revert acc. induction entries as [|[name deps] rest IH]; intros acc Hrun Hk.
  - by injection Hrun as <-.
  - cbn [fmap list_fmap fst] in Hk. apply not_elem_of_cons in Hk as [Hne Hk].
    cbn [recompute] in Hrun. destruct (0 <? _)%nat; [|by apply IH].
    destruct (computed !! name) as [fn|]; [|done]. cbn in Hrun.
    rewrite (IH _ Hrun Hk). by apply lookup_insert_ne.
Qed.

Lemma recompute_total computed cur changes entries acc :
  (∀ name, name ∈ entries.*1 → is_Some (computed !! name)) →
  is_Some (recompute computed cur changes entries acc).
Proof.
  revert acc. induction entries as [|[name deps] rest IH]; intros acc Hall; [by eexists|].
  cbn [recompute].
  assert (∀ acc', is_Some (recompute computed cur changes rest acc')) as Hrest.
  { intros acc'. apply IH. intros n Hn. apply Hall. cbn. by right. }
  destruct (0 <? _)%nat; [|done].
  destruct (Hall name) as [fn ->]; [cbn; by left|]. cbn. done.
Qed.

(** The entry [E] in the middle of a pass: with the entries before it
    giving [uc_pre], [E] is left out when no dependency is touched, and
    otherwise holds its derivation over [uc_pre], the changes and the old
    state; the entries after it start from there. *)
Lemma recompute_at computed cur changes pre E deps post uc :
  NoDup (pre ++ (E, deps) :: post).*1 →
  recompute computed cur changes (pre ++ (E, deps) :: post) ∅ = Some uc →
  ∃ uc_pre uc_E,
    recompute computed cur changes pre ∅ = Some uc_pre
    ∧ recompute computed cur changes post uc_E = Some uc
    ∧ (∀ k, k ≠ E → uc_E !! k = uc_pre !! k)
    ∧ (¬ touched changes deps → uc !! E = None)
    ∧ (touched changes deps →
       ∃ fn, computed !! E = Some fn
             ∧ uc !! E = Some (apply fn (uc_pre ∪ (changes ∪ cur)))).
Proof.
  intros Hnd Hrun. rewrite fmap_app, fmap_cons in Hnd. cbn [fst] in Hnd.
  apply NoDup_app in Hnd as (_ & Hdisj & Hnd2). apply NoDup_cons in Hnd2 as [HEpost _].
  rewrite recompute_app in Hrun.
  destruct (recompute computed cur changes pre ∅) as [uc_pre|] eqn:Hpre; [|done].
  cbn [mbind option_bind] in Hrun. exists uc_pre.
  assert (uc_pre !! E = None) as HEpre.
  { rewrite (recompute_other _ _ _ _ _ _ _ Hpre); [done|].
    intros Hin. apply (Hdisj E Hin). by left. }
  cbn [recompute] in Hrun.
  destruct (0 <? _)%nat eqn:Hneeds.
  - apply needs_recompute_touched in Hneeds.
    destruct (computed !! E) as [fn|]; [|done]. cbn [mbind option_bind] in Hrun.
    eexists. split; [done|]. split; [exact Hrun|].
    split; [intros k Hk; by apply lookup_insert_ne|]. split; [done|].
    intros _. exists fn. split; [done|].
    rewrite (recompute_other _ _ _ _ _ _ _ Hrun HEpost). apply lookup_insert_eq.
  - apply needs_recompute_untouched in Hneeds.
    exists uc_pre. split; [done|]. split; [exact Hrun|].
    split; [done|]. split; [|done].
    intros _. by rewrite (recompute_other _ _ _ _ _ _ _ Hrun HEpost).
Qed.

(** A later entry that is not touched is not in the result. *)
Lemma recompute_untouched computed cur changes entries acc uc k deps :
  NoDup entries.*1 →
  recompute computed cur changes entries acc = Some uc →
  (k, deps) ∈ entries → ¬ touched changes deps → uc !! k = acc !! k.
Proof.
  revert acc. induction entries as [|[name ds] rest IH]; intros acc Hnd Hrun Hin Hnot.
  - by apply not_elem_of_nil in Hin.
  - cbn [fmap list_fmap fst] in Hnd. apply NoDup_cons in Hnd as [Hname Hnd].
    cbn [recompute] in Hrun. apply elem_of_cons in Hin as [[= -> ->]|Hin].
    + apply needs_recompute_untouched in Hnot. rewrite Hnot in Hrun.
      by apply (recompute_other _ _ _ _ _ _ _ Hrun).
    + assert (k ≠ name) as Hne.
      { intros ->. apply Hname, list_elem_of_fmap. by exists (name, deps). }
      destruct (0 <? _)%nat; [|by apply IH].
      destruct (computed !! name) as [fn|]; [|done]. cbn in Hrun.
      rewrite (IH _ Hnd Hrun Hin Hnot). by apply lookup_insert_ne.
Qed.

(** ** Freshness of computed values *)

(** C1, amended.  A registered entry [E] and a write that commits.
    When a dependency of [E] is among the keys of the explicit changes,
    [E] is recomputed, and the value the store holds for [E] after the
    commit is its derivation applied to the committed state, provided
    the derivation reads only its extracted dependencies and none of
    them is [E] itself or an entry registered after [E] that this write
    recomputes.  When no dependency of [E] is among those keys, [E] is
    not recomputed, whatever else the write recomputes: it keeps its
    value, or takes the one the write gives it explicitly. *)
Theorem computed_fresh_after_commit
    inst d partialState setSettings w wc newState cur lo pre E deps post fn :
  _computedPropDependencies inst = pre ++ (E, deps) :: post →
  NoDup (_computedPropDependencies inst).*1 →
  _computed inst !! E = Some fn →
  commitPhase inst d (partialState, setSettings) zustand_setState w
    = (wc, Done (newState, cur, lo)) →
  (touched (resolve partialState (store w)) deps →
   reads_only fn deps →
   E ∉ deps →
   (∀ k deps_k, k ∈ deps → (k, deps_k) ∈ post →
      ¬ touched (resolve partialState (store w)) deps_k) →
   store wc !! E = Some (apply fn (store wc)))
  ∧ (¬ touched (resolve partialState (store w)) deps →
     store wc !! E = (resolve partialState (store w) ∪ store w) !! E).
Proof.
  intros Hreg Hnd Hfn Hcommit.
  rewrite commitPhase_run in Hcommit. cbn zeta in Hcommit.
  destruct (recompute _ _ _ _ _) as [uc|] eqn:Huc; [|done].
  injection Hcommit as <- <- <- <-. cbn [store].
  set (changes := resolve partialState (store w)) in *.
  rewrite Hreg in Huc, Hnd.
  destruct (recompute_at _ _ _ _ _ _ _ _ Hnd Huc)
    as (uc_pre & uc_E & Hpre & Hpost & HE & Hskip & Hval).
  split.
  - intros Htouched Hreads Hself Hlater.
    destruct (Hval Htouched) as (fn' & Hfn' & HucE).
    rewrite Hfn in Hfn'. injection Hfn' as <-.
    rewrite (lookup_union_Some_l _ _ _ _ (lookup_union_Some_l _ _ _ _ HucE)).
    f_equal. apply Hreads. intros k Hk.
    rewrite <- (assoc_L (∪)). rewrite !lookup_total_alt, !lookup_union.
    assert (uc !! k = uc_pre !! k) as ->; [|done].
    assert (k ≠ E) as Hne by (intros ->; done).
    rewrite <- (HE k Hne).
    rewrite fmap_app, fmap_cons in Hnd. apply NoDup_app in Hnd as (_ & _ & Hnd2).
    apply NoDup_cons in Hnd2 as [_ Hnd2].
    destruct (decide (k ∈ post.*1)) as [Hin|Hnin].
    + apply list_elem_of_fmap in Hin as ([k' deps_k] & -> & Hin).
      eapply recompute_untouched; [exact Hnd2 | exact Hpost | exact Hin |].
      by eapply Hlater.
    + by eapply recompute_other.
  - intros Hnot. rewrite <- (assoc_L (∪)). by rewrite lookup_union_r by (by apply Hskip).
Qed.

(** ** Registration *)

Lemma configComputed_loop_run computed inst computedToAdd w :
  configComputed_loop computed inst computedToAdd w =
  (w, Done (register computed inst, staged (store w) computed computedToAdd)).
Proof.
  revert inst computedToAdd.
  induction computed as [|[key value] rest IH]; intros inst computedToAdd; [done|].
  cbn [configComputed_loop register staged]. rewrite run_bind. cbn [getState].
  apply IH.
Qed.

Lemma put_fresh {A} key (v : A) obj :
  key ∉ obj.*1 → put key v obj = obj ++ [(key, v)].
Proof.
  induction obj as [|[k x] obj IH]; [done|].
  cbn [fmap list_fmap fst]. intros Hk. apply not_elem_of_cons in Hk as [Hne Hk].
  cbn [put app]. destruct (String.eqb_spec k key) as [->|_]; [done|].
  by rewrite IH.
Qed.

Lemma put_keys_NoDup {A} key (v : A) obj : NoDup obj.*1 → NoDup (put key v obj).*1.
Proof.
  induction obj as [|[k x] obj IH]; intros Hnd.
  - cbn. apply NoDup_singleton.
  - cbn [fmap list_fmap fst] in Hnd. apply NoDup_cons in Hnd as [Hk Hnd].
    cbn [put]. destruct (String.eqb_spec k key) as [->|Hne].
    + cbn. by apply NoDup_cons.
    + cbn [fmap list_fmap fst]. apply NoDup_cons. split; [|by apply IH].
      intros Hin. apply Hk. clear -Hin Hne.
      induction obj as [|[k' x'] obj IH]; cbn in *.
      * apply list_elem_of_singleton in Hin. congruence.
      * destruct (String.eqb_spec k' key) as [->|_]; [done|].
        cbn in Hin. apply elem_of_cons in Hin as [->|Hin]; [by left|].
        right. by apply IH.
Qed.

Lemma assign_proto {A} (v : A) obj : assign proto v obj = obj.
Proof. unfold assign. by rewrite String.eqb_refl. Qed.

Lemma assign_put {A} key (v : A) obj : key ≠ proto → assign key v obj = put key v obj.
Proof. unfold assign. by destruct (String.eqb_spec key proto). Qed.

Lemma assign_fresh {A} key (v : A) obj :
  key ≠ proto → key ∉ obj.*1 → assign key v obj = obj ++ [(key, v)].
Proof. intros Hp Hk. rewrite assign_put by done. by apply put_fresh. Qed.

Lemma assign_keys_NoDup {A} key (v : A) obj : NoDup obj.*1 → NoDup (assign key v obj).*1.
Proof.
  unfold assign. destruct (String.eqb key proto); [done|]. apply put_keys_NoDup.
Qed.

Lemma assign_entry_proto {A} (v : A) obj : assign_entry proto v obj = obj.
Proof. unfold assign_entry. by rewrite String.eqb_refl. Qed.

Lemma assign_entry_insert {A} key (v : A) obj :
  key ≠ proto → assign_entry key v obj = <[key := v]> obj.
Proof. unfold assign_entry. by destruct (String.eqb_spec key proto). Qed.

Lemma lookup_assign_entry_ne {A} key (v : A) obj k :
  key ≠ k → assign_entry key v obj !! k = obj !! k.
Proof.
  intros Hne. unfold assign_entry. destruct (String.eqb key proto); [done|].
  by apply lookup_insert_ne.
Qed.

(** Whatever is handed to [configWatchers], no key is registered twice. *)
Lemma configWatchers_NoDup watchers inst :
  NoDup (_watchers inst).*1 → NoDup (_watchers (configWatchers watchers inst)).*1.
Proof.
  unfold configWatchers. cbn [_watchers]. generalize (_watchers inst) as acc.
  induction watchers as [|[propName fn] rest IH]; intros acc Hnd; [done|].
  cbn [fold_left]. apply IH. by apply assign_keys_NoDup.
Qed.


Lemma registered_cons key fn rest :
  registered ((key, fn) :: rest) =
  (if (0 <? length (getDeps fn))%nat && negb (String.eqb key proto)
   then [(key, getDeps fn)] else []) ++ registered rest.
Proof.
  unfold registered. cbn [omap list_omap]. by destruct (_ && _).
Qed.

Lemma registered_keys computed k : k ∈ (registered computed).*1 → k ∈ computed.*1.
Proof.
  induction computed as [|[key fn] rest IH]; [done|].
  rewrite registered_cons. destruct (_ && _); cbn [app fmap list_fmap fst].
  - intros [->|Hin]%elem_of_cons; [by left | right; by apply IH].
  - intros Hin. right. by apply IH.
Qed.

Lemma registered_not_proto computed : proto ∉ (registered computed).*1.
Proof.
  induction computed as [|[key fn] rest IH]; [apply not_elem_of_nil|].
  rewrite registered_cons. destruct (String.eqb_spec key proto) as [->|Hne].
  - by rewrite andb_false_r.
  - destruct (_ && _); cbn [app fmap list_fmap fst]; [|done].
    apply not_elem_of_cons. split; [congruence | done].
Qed.

Lemma registered_NoDup computed : NoDup computed.*1 → NoDup (registered computed).*1.
Proof.
  induction computed as [|[key fn] rest IH]; [done|].
  cbn [fmap list_fmap fst]. intros [Hk Hnd]%NoDup_cons.
  rewrite registered_cons. destruct (_ && _); cbn [app]; [|by apply IH].
  cbn [fmap list_fmap fst]. apply NoDup_cons. split; [|by apply IH].
  intros Hin. by apply Hk, registered_keys.
Qed.

Lemma register_dependencies computed inst :
  NoDup ((_computedPropDependencies inst).*1 ++ computed.*1) →
  _computedPropDependencies (register computed inst) =
  _computedPropDependencies inst ++ registered computed.
Proof.
  revert inst. induction computed as [|[key fn] rest IH]; intros inst Hnd.
  - cbn. by rewrite app_nil_r.
  - cbn [register]. rewrite registered_cons.
    cbn [fmap list_fmap fst] in Hnd.
    assert (key ∉ (_computedPropDependencies inst).*1) as Hfresh.
    { apply NoDup_app in Hnd as (_ & Hdisj & _). intros Hin.
      apply (Hdisj key Hin). by left. }
    assert (NoDup ((_computedPropDependencies inst).*1 ++ rest.*1)) as Hrest.
    { apply NoDup_app in Hnd as (Hnd1 & Hdisj & Hnd2).
      apply NoDup_cons in Hnd2 as [_ Hnd2].
      apply NoDup_app. split; [done|]. split; [|done].
      intros k Hk Hin. apply (Hdisj k Hk). by right. }
    destruct (0 <? _)%nat; cbn [andb]; [|by apply IH].
    destruct (String.eqb_spec key proto) as [->|Hne]; cbn [negb app].
    + rewrite IH; cbn [_computedPropDependencies]; rewrite assign_proto; done.
    + rewrite IH; cbn [_computedPropDependencies]; rewrite assign_fresh by done.
      * by rewrite <- app_assoc.
      * rewrite fmap_app, <- app_assoc. exact Hnd.
Qed.

Lemma register_computed_other computed inst k :
  k ∉ computed.*1 → _computed (register computed inst) !! k = _computed inst !! k.
Proof.
  revert inst. induction computed as [|[key fn] rest IH]; intros inst Hk; [done|].
  cbn [fmap list_fmap fst] in Hk. apply not_elem_of_cons in Hk as [Hne Hk].
  cbn [register]. rewrite IH by done.
  destruct (0 <? _)%nat; [|done]. cbn [_computed]. by apply lookup_assign_entry_ne.
Qed.

Lemma register_computed computed inst k fn :
  NoDup computed.*1 → (k, fn) ∈ computed → getDeps fn ≠ [] → k ≠ proto →
  _computed (register computed inst) !! k = Some fn.
Proof.
  revert inst. induction computed as [|[key f] rest IH]; intros inst Hnd Hin Hdeps Hp.
  - by apply not_elem_of_nil in Hin.
  - cbn [fmap list_fmap fst] in Hnd. apply NoDup_cons in Hnd as [Hkey Hnd].
    cbn [register]. apply elem_of_cons in Hin as [[= -> ->]|Hin]; [|by apply IH].
    rewrite register_computed_other by done.
    destruct (getDeps f); [done|]. cbn. rewrite assign_entry_insert by done.
    apply lookup_insert_eq.
Qed.

Lemma registered_origin computed k deps :
  (k, deps) ∈ registered computed →
  ∃ fn, (k, fn) ∈ computed ∧ deps = getDeps fn ∧ deps ≠ [] ∧ k ≠ proto.
Proof.
  induction computed as [|[key f] rest IH]; [by intros ?%not_elem_of_nil|].
  rewrite registered_cons. intros [Hin|Hin]%elem_of_app.
  - destruct (getDeps f) as [|x l] eqn:Hd; cbn [length Nat.ltb Nat.leb andb] in Hin;
      [by apply not_elem_of_nil in Hin|].
    destruct (String.eqb_spec key proto) as [->|Hne]; cbn [negb] in Hin;
      [by apply not_elem_of_nil in Hin|].
    apply list_elem_of_singleton in Hin. injection Hin as -> ->.
    exists f. split; [by left|]. by rewrite Hd.
  - destruct (IH Hin) as (fn & ? & ? & ?). exists fn. split; [by right | done].
Qed.

Lemma staged_app st pre post acc :
  staged st (pre ++ post) acc = staged st post (staged st pre acc).
Proof.
  revert acc. induction pre as [|[key fn] pre IH]; intros acc; [done|]. cbn. apply IH.
Qed.

Lemma staged_other st computed acc k :
  k ∉ computed.*1 → staged st computed acc !! k = acc !! k.
Proof.
  revert acc. induction computed as [|[key fn] rest IH]; intros acc Hk; [done|].
  cbn [fmap list_fmap fst] in Hk. apply not_elem_of_cons in Hk as [Hne Hk].
  cbn [staged]. rewrite IH by done. by apply lookup_insert_ne.
Qed.

Lemma NoDup_keys_unique {A} (l : list (string * A)) k a b :
  NoDup l.*1 → (k, a) ∈ l → (k, b) ∈ l → a = b.
Proof.
  induction l as [|[k' x] l IH]; [by intros _ ?%not_elem_of_nil|].
  cbn [fmap list_fmap fst]. intros [Hk Hnd]%NoDup_cons Ha Hb.
  apply elem_of_cons in Ha as [[= -> ->]|Ha]; apply elem_of_cons in Hb as [[= <-]|Hb].
  - done.
  - exfalso. apply Hk, list_elem_of_fmap. by exists (k', b).
  - exfalso. apply Hk, list_elem_of_fmap. by exists (k, a).
  - by apply IH.
Qed.

Lemma elem_of_put_keys {A} key (v : A) obj name :
  name ∈ (put key v obj).*1 ↔ name = key ∨ name ∈ obj.*1.
Proof.
  induction obj as [|[k x] obj IH]; cbn [put].
  - cbn. rewrite list_elem_of_singleton. split; [by left|]. by intros [?|?%not_elem_of_nil].
  - destruct (String.eqb_spec k key) as [->|Hne]; cbn [fmap list_fmap fst].
    + rewrite !elem_of_cons. tauto.
    + rewrite !elem_of_cons, IH. tauto.
Qed.

Lemma elem_of_assign_keys {A} key (v : A) obj name :
  name ∈ (assign key v obj).*1 ↔ (name = key ∧ key ≠ proto) ∨ name ∈ obj.*1.
Proof.
  unfold assign. destruct (String.eqb_spec key proto) as [->|Hne].
  - split; [by right | by intros [[_ ?]|?]].
  - rewrite elem_of_put_keys. tauto.
Qed.

Lemma register_keys computed inst name :
  name ∈ (_computedPropDependencies (register computed inst)).*1 →
  name ∈ (_computedPropDependencies inst).*1 ∨ name ∈ computed.*1.
Proof.
  revert inst. induction computed as [|[key fn] rest IH]; intros inst; [by left|].
  cbn [register]. intros Hin. apply IH in Hin as [Hin|Hin].
  - destruct (0 <? _)%nat; [|by left]. cbn [_computedPropDependencies] in Hin.
    apply elem_of_assign_keys in Hin as [[-> _]|Hin]; [right; by left | by left].
  - right. by right.
Qed.

Lemma register_consistent computed inst :
  consistent inst → consistent (register computed inst).
Proof.
  revert inst. induction computed as [|[key fn] rest IH]; intros inst Hc; [done|].
  cbn [register]. apply IH. destruct (0 <? _)%nat; [|done].
  intros name Hin. cbn [_computedPropDependencies _computed] in *.
  apply elem_of_assign_keys in Hin as [[-> Hp]|Hin].
  - rewrite assign_entry_insert, lookup_insert_eq by done. by eexists.
  - destruct (decide (key = name)) as [->|Hne].
    + unfold assign_entry. destruct (String.eqb name proto); [by apply Hc|].
      rewrite lookup_insert_eq. by eexists.
    + rewrite lookup_assign_entry_ne by done. by apply Hc.
Qed.

Lemma register_fields computed inst :
  _watchers (register computed inst) = _watchers inst
  ∧ _settings (register computed inst) = _settings inst.
Proof.
  revert inst. induction computed as [|[key fn] rest IH]; intros inst; [done|].
  cbn [register]. destruct (IH (if (0 <? length (getDeps fn))%nat
                               then mkInstance (assign_entry key fn (_computed inst))
                                      (assign key (getDeps fn) (_computedPropDependencies inst))
                                      (_watchers inst) (_settings inst)
                               else inst)) as [-> ->].
  by destruct (0 <? _)%nat.
Qed.

Lemma consistent_newStateOf inst partialState st :
  consistent inst → is_Some (newStateOf inst partialState st).
Proof.
  intros Hc. unfold newStateOf.
  destruct (recompute_total (_computed inst) st (resolve partialState st)
              (_computedPropDependencies inst) ∅ Hc) as [uc ->].
  by eexists.
Qed.

(** A write on a store without watchers: commit, console calls, done. *)
Lemma setState_no_watchers fuel inst d partialState setSettings w uc :
  _watchers inst = [] →
  recompute (_computed inst) (store w) (resolve partialState (store w))
    (_computedPropDependencies inst) ∅ = Some uc →
  let lo := logOperationsOf (_settings inst) setSettings in
  let changes := resolve partialState (store w) in
  let final := (uc ∪ changes) ∪ store w in
  setState (S fuel) inst zustand_setState d partialState setSettings w =
  (mkWorld final
     (trace w ++ tagged d (commit_events inst lo (store w) changes (Some uc)
                           ++ tail_events inst lo final)),
   Done tt).
Proof.
  intros Hw Huc. cbn zeta. cbn [setState]. unfold setMiddleware.
  rewrite run_bind, commitPhase_run. cbn zeta. rewrite Huc. cbn beta iota.
  rewrite Hw. cbn [dispatchWatchers]. rewrite run_bind, run_ret, tail_run.
  cbn [store trace]. unfold tagged. by rewrite fmap_app, <- app_assoc.
Qed.

Lemma commit_events_off inst cur changes uc : commit_events inst false cur changes uc = [].
Proof. unfold commit_events. destruct uc as [uc|]; [|done]. by rewrite andb_false_r. Qed.

Lemma console_is_no_watcher_call d es :
  Forall (λ e, is_console e = true) es →
  Forall (λ e : nat * Event, is_watcher_call e.2 = false) (tagged d es).
Proof.
  intros Hall. unfold tagged. apply Forall_fmap. eapply Forall_impl; [done|].
  intros e He. cbn. by destruct e.
Qed.

Lemma nonempty_false (o : State) : nonempty o = false → o = ∅.
Proof.
  unfold nonempty, Object_keys. rewrite Nat.ltb_ge, length_fmap. intros Hlen.
  apply map_to_list_empty_iff. destruct (map_to_list o); [done | cbn in Hlen; lia].
Qed.

Lemma recompute_no_changes computed cur entries acc :
  recompute computed cur ∅ entries acc = Some acc.
Proof.
  induction entries as [|[name deps] rest IH]; [done|]. cbn [recompute].
  assert ((0 <? length (intersection (Object_keys ∅) deps))%nat = false) as ->; [|done].
  apply needs_recompute_untouched. intros (k & _ & [v Hv]). by rewrite lookup_empty in Hv.
Qed.


(** ** Stages and the wiring *)

Lemma flow_wrapping wraps config set api :
  flow (wrapping <$> wraps) config set api =
  config (foldr (λ wrap next, wrap next) set wraps) api.
Proof.
  revert config. induction wraps as [|wrap wraps IH]; intros config; [done|].
  cbn [fmap list_fmap foldr]. unfold flow in *. cbn [fold_left]. by rewrite IH.
Qed.


(** With stages that wrap the [set] they hand down and leave the api
    object alone, what the innermost creator keeps as
    [_originalSetState] is the write function the api object came
    with. *)
Lemma originalSetState_wrapping fuel inst mw store0 wraps set api d :
  (∀ store, middlewareFunctions mw store = flow (wrapping <$> wraps) store) →
  (∀ set' api', original_setState (store0 set' api') = api_setState api') →
  setState fuel inst (originalSetState_of fuel inst (middlewareFunctions mw store0) set api) d
  = setState fuel inst (api_setState api) d.
Proof.
  intros Hmw Hcore. destruct fuel as [|fuel]; [done|].
  cbn [originalSetState_of]. by rewrite Hmw, flow_wrapping, Hcore.
Qed.


(** The wiring when the stages, if any, only wrap the [set]: the api
    object carries the interceptor over zustand's write function, and
    the state initializer gets the same interceptor inside the wrappers
    of the stages. *)
Lemma wire_wrapping fuel inst addons stateInitializer wraps :
  (∀ store, middlewareFunctions (addons ≫= middleware) store = flow (wrapping <$> wraps) store) →
  wire fuel inst addons stateInitializer =
  mkCreated stateInitializer
    (foldr (λ wrap next, wrap next) (setState (S fuel) inst zustand_setState 0) wraps)
    (mkApi (setState (S fuel) inst zustand_setState 0))
    zustand_setState.
Proof.
  intros Hmw. unfold wire, create, attachMiddleWare.
  rewrite (originalSetState_wrapping _ _ _ _ wraps) by done.
  by rewrite Hmw, flow_wrapping.
Qed.


(** What [createStore] hands out is the wiring over the final
    registries. *)
Lemma createStore_wire fuel stateInitializer addons w w' us :
  createStore fuel stateInitializer addons w = (w', Done us) →
  use_setState us = api_setState (api_after (wire fuel (registries us) addons stateInitializer))
  ∧ use_initializer_set us
    = initializer_set (wire fuel (registries us) addons stateInitializer).
Proof.
  unfold createStore. rewrite run_bind. cbn [putState]. rewrite run_bind.
  destruct (configComputed _ _ _ _) as [w1 [inst1| |]]; [|done..].
  rewrite run_ret. intros [= <- <-]. done.
Qed.

(** ** Building a store *)

(** What [createStore] does when the stages, if any, only wrap the
    [set]: it returns; the state it leaves is the initializer's,
    overlaid with the staged computed values and with what their commit
    recomputed; its trace gains console calls only, and none when the
    initial commit does not log. *)
Lemma createStore_run fuel stateInitializer addons w :
  only_wraps_set addons →
  let cs := default [] (addons ≫= computed) in
  let inst1 := register cs (initial_registries addons) in
  let toAdd := staged stateInitializer cs ∅ in
  ∃ w' us uc evs,
    createStore fuel stateInitializer addons w = (w', Done us)
    ∧ registries us = configWatchers (default [] (addons ≫= watchers)) inst1
    ∧ recompute (_computed inst1) stateInitializer toAdd (_computedPropDependencies inst1) ∅
      = Some uc
    ∧ store w' = (uc ∪ toAdd) ∪ stateInitializer
    ∧ trace w' = trace w ++ evs
    ∧ Forall (λ e, is_watcher_call e.2 = false) evs
    ∧ (logOperationsOf (_settings inst1) None = false → evs = []).
Proof.
  intros [wraps Hmw] cs inst1 toAdd.
  assert (consistent inst1) as Hc.
  { apply register_consistent. intros name Hin. by apply not_elem_of_nil in Hin. }
  destruct (recompute_total (_computed inst1) stateInitializer toAdd
              (_computedPropDependencies inst1) ∅ Hc) as [uc Huc].
  assert (_watchers inst1 = []) as Hw by (unfold inst1; by rewrite (proj1 (register_fields _ _))).
  unfold createStore. fold (initial_registries addons). fold cs.
  rewrite run_bind. cbn [putState].
  rewrite (wire_wrapping _ _ _ _ wraps Hmw). cbn [initial].
  rewrite run_bind. unfold configComputed.
  rewrite run_bind, configComputed_loop_run. cbn [store]. fold inst1 toAdd.
  rewrite run_bind. fold (nonempty toAdd).
  rewrite (wire_wrapping _ _ _ _ wraps Hmw). cbn [api_after api_setState].
  destruct (nonempty toAdd) eqn:Hne.
  - cbn [when].
    rewrite (setState_no_watchers _ inst1 0 (Plain toAdd) None
               (mkWorld stateInitializer (trace w)) uc Hw Huc).
    cbn [store trace resolve]. rewrite !run_ret.
    eexists _, _, uc, _. split; [reflexivity|]. cbn [registries store trace].
    split; [done|]. split; [done|]. split; [done|]. split; [done|]. split.
    + apply console_is_no_watcher_call, Forall_app.
      split; [apply commit_events_console | apply tail_events_console].
    + intros ->. by rewrite commit_events_off.
  - cbn [when]. rewrite !run_ret.
    apply nonempty_false in Hne. rewrite Hne in Huc.
    rewrite recompute_no_changes in Huc. injection Huc as <-.
    eexists _, _, ∅, []. split; [reflexivity|]. cbn [registries store trace].
    split; [done|]. split; [by rewrite Hne, recompute_no_changes|].
    split; [by rewrite Hne, !(left_id_L ∅ (∪))|]. split; [by rewrite app_nil_r|].
    split; [constructor | done].
Qed.


(** ** Middleware and the write paths *)

(** The stages that only look: the write goes on with one more entry in
    the trace per stage, first listed first. *)
Lemma foldr_observing (stages : list nat) (set : SetState) partial setSettings w :
  foldr (λ wrap next, wrap next) set
    ((λ stage next args ss, emit 0 (StageSeen stage);; next args ss) <$> stages)
    partial setSettings w =
  set partial setSettings
    (mkWorld (store w) (trace w ++ ((λ stage, (0, StageSeen stage)) <$> stages))).
Proof.
  revert w. induction stages as [|stage stages IH]; intros [st tr].
  - cbn. by rewrite app_nil_r.
  - cbn [fmap list_fmap foldr]. rewrite run_bind, run_emit. cbn [store trace].
    rewrite IH. cbn [store trace]. by rewrite <- app_assoc.
Qed.

Lemma observing_wrapping (stages : list nat) :
  observing <$> stages =
  wrapping <$> ((λ stage next args ss, emit 0 (StageSeen stage);; next args ss) <$> stages).
Proof. by rewrite <- list_fmap_compose. Qed.



(** ** Dependency extraction *)

Lemma matchAll_oids re skip pos next s :
  oid <$> matchAll re skip pos next s = seq next (length (matchAll re skip pos next s)).
Proof.
  revert skip pos next. induction s as [|c s IH]; intros skip pos next; [done|].
  cbn [matchAll]. destruct skip as [|k]; [|apply IH].
  destruct (re (String c s)) as [[full group]|]; [|apply IH].
  cbn [fmap list_fmap oid length seq]. f_equal. apply IH.
Qed.

Lemma Set_of_objects_distinct xs seen :
  NoDup (oid <$> xs) → (∀ x, x ∈ xs → oid x ∉ seen) → Set_of_objects xs seen = xs.
Proof.
  revert seen. induction xs as [|x xs IH]; intros seen Hnd Hseen; [done|].
  cbn [fmap list_fmap] in Hnd. apply NoDup_cons in Hnd as [Hx Hnd].
  cbn [Set_of_objects]. rewrite bool_decide_eq_false_2 by (apply Hseen; by left).
  f_equal. apply IH; [done|]. intros y Hy [Heq|Hin]%elem_of_cons.
  - apply Hx, list_elem_of_fmap. by exists y.
  - apply (Hseen y); [by right | done].
Qed.

(** Every match object is its own object, so the [Set] drops nothing:
    [getDeps] returns the names of all [this.name] matches followed by
    the names of all [this['name']] matches, repeats included. *)
Lemma getDeps_all_matches fn :
  getDeps fn =
  (m1 <$> matchAll reg 0 0 0 (toString fn))
  ++ (m1 <$> matchAll reg2 0 0 (length (matchAll reg 0 0 0 (toString fn))) (toString fn)).
Proof.
  unfold getDeps. rewrite Set_of_objects_distinct, fmap_app; [done| |].
  - rewrite fmap_app, !matchAll_oids, <- seq_app. apply NoDup_seq.
  - intros x _. apply not_elem_of_nil.
Qed.

(** C5, at the input where the code and the claim part: the source
    mentions [this.a] twice and [getDeps] returns the name twice. *)
Theorem getDeps_keeps_repeated_names :
  getDeps ex_twice = ["a"; "a"]%string ∧ ¬ NoDup (getDeps ex_twice).
Proof.
  assert (getDeps ex_twice = ["a"; "a"]%string) as -> by (vm_compute; reflexivity).
  split; [done|]. intros [Hin _]%NoDup_cons. apply Hin. by left.
Qed.

(** The two forms are collected one after the other, not in the order of
    the text. *)
Example getDeps_bracket_form_last : getDeps ex_mixed = ["a"; "b"]%string.
Proof. vm_compute. reflexivity. Qed.

Example getDeps_full : getDeps ex_full = ["first"; "last"]%string.
Proof. vm_compute. reflexivity. Qed.


(** C10.  The match is on the text alone: [this.x] inside a string
    literal, inside a comment, or on the left of an assignment puts [x]
    among the dependencies of a derivation whose value does not depend on
    the property [x]. *)
Theorem getDeps_counts_text_that_is_no_read :
  Forall (λ fn, (∀ (this : State) v, apply fn (<["x"%string := v]> this) = apply fn this)
                ∧ "x"%string ∈ getDeps fn)
         [ex_in_literal; ex_in_comment; ex_assigned].
Proof.
  assert (getDeps ex_in_literal = ["x"%string]) as Hliteral by (vm_compute; reflexivity).
  assert (getDeps ex_in_comment = ["x"%string]) as Hcomment by (vm_compute; reflexivity).
  assert (getDeps ex_assigned = ["x"; "y"]%string) as Hassigned by (vm_compute; reflexivity).
  apply Forall_cons_2; [|apply Forall_cons_2; [|apply Forall_cons_2; [|apply Forall_nil_2]]].
  - split; [intros this v; reflexivity|]. rewrite Hliteral. by left.
  - split; [intros this v; reflexivity|]. rewrite Hcomment. by left.
  - split; [|rewrite Hassigned; by left].
    intros this v. unfold ex_assigned. cbn [apply]. by rewrite lookup_total_insert_ne.
Qed.

(** ** Batch reads *)

Example split_trim_example : trim <$> split_comma "a, b" = ["a"; "b"]%string.
Proof. reflexivity. Qed.

Example split_keeps_empty_parts : trim <$> split_comma " a ,,b " = ["a"; ""; "b"]%string.
Proof. reflexivity. Qed.

Lemma Object_is_refl v : Object_is v v = true.
Proof. unfold Object_is. by apply bool_decide_eq_true. Qed.

Lemma shallow_items_same (props : list string) (s1 s2 : State) :
  (∀ prop, prop ∈ props → s2 !!! prop = s1 !!! prop) →
  shallow_items ((λ prop, s1 !!! prop) <$> props) ((λ prop, s2 !!! prop) <$> props) = true.
Proof.
  induction props as [|prop props IH]; intros Hsame; [done|].
  cbn [fmap list_fmap shallow_items]. rewrite (Hsame prop) by (by left).
  rewrite Object_is_refl. apply IH. intros p Hp. apply Hsame. by right.
Qed.

Lemma split_comma_length s : length (split_comma s) = S (count_commas s).
Proof.
  induction s as [|c s IH]; [done|]. cbn [split_comma count_commas].
  destruct (Ascii.eqb c ","); cbn [length]; [by rewrite IH|].
  destruct (split_comma s); [done|]. exact IH.
Qed.

Lemma split_comma_parts s : Forall (λ part, has_comma part = false) (split_comma s).
Proof.
  induction s as [|c s IH]; [by repeat constructor|]. cbn [split_comma].
  destruct (Ascii.eqb c ",") eqn:Hc; [by constructor|].
  destruct (split_comma s) as [|part parts].
  - constructor; [|done]. cbn. by rewrite Hc.
  - apply Forall_cons in IH as [Hpart Hparts]. constructor; [|done].
    cbn. by rewrite Hc, Hpart.
Qed.

Lemma has_comma_trimStart s : has_comma s = false → has_comma (trimStart s) = false.
Proof.
  induction s as [|c s IH]; [done|]. cbn [trimStart].
  destruct (is_space c); [|done]. cbn [has_comma]. intros [_ Hs]%orb_false_elim. by apply IH.
Qed.

Lemma has_comma_trimEnd s : has_comma s = false → has_comma (trimEnd s) = false.
Proof.
  induction s as [|c s IH]; [done|]. cbn [trimEnd has_comma].
  intros [Hc Hs]%orb_false_elim.
  destruct (is_space c && String.eqb (trimEnd s) ""); [done|].
  cbn [has_comma]. by rewrite Hc, IH.
Qed.

Lemma trimStart_head s c : head_char (trimStart s) = Some c → is_space c = false.
Proof.
  induction s as [|a s IH]; [done|]. cbn [trimStart].
  destruct (is_space a) eqn:Ha; [done|]. cbn. by intros [= <-].
Qed.

Lemma trimEnd_head s c : head_char (trimEnd s) = Some c → head_char s = Some c.
Proof.
  destruct s as [|a s]; [done|]. cbn [trimEnd].
  by destruct (is_space a && String.eqb (trimEnd s) "").
Qed.

Lemma trimEnd_last s c : last_char (trimEnd s) = Some c → is_space c = false.
Proof.
  induction s as [|a s IH]; [done|]. cbn [trimEnd].
  destruct (trimEnd s) as [|b t] eqn:Ht.
  - cbn. destruct (is_space a) eqn:Ha; cbn; [done|]. by intros [= <-].
  - rewrite andb_false_r. cbn [last_char]. exact IH.
Qed.

(** The parts put together again with commas are the string. *)
Lemma concat_split_comma s : String.concat "," (split_comma s) = s.
Proof.
  induction s as [|c s IH]; [done|]. cbn [split_comma].
  pose proof (split_comma_length s) as Hlen.
  destruct (Ascii.eqb_spec c ",") as [->|_].
  - destruct (split_comma s) as [|part parts]; [done|]. by rewrite <- IH.
  - destruct (split_comma s) as [|part parts]; [done|].
    destruct parts as [|part' parts]; by rewrite <- IH.
Qed.

Lemma trimStart_spaces s :
  ∃ l, s = String.append l (trimStart s) ∧ all_space l = true.
Proof.
  induction s as [|c s (l & Hl & Hsp)]; [by exists EmptyString|]. cbn [trimStart].
  destruct (is_space c) eqn:Hc.
  - exists (String c l). split.
    + change (String.append (String c l) (trimStart s))
        with (String c (String.append l (trimStart s))). by rewrite <- Hl.
    + cbn [all_space]. by rewrite Hc, Hsp.
  - exists EmptyString. by split.
Qed.

Lemma trimEnd_spaces s :
  ∃ r, s = String.append (trimEnd s) r ∧ all_space r = true.
Proof.
  induction s as [|c s (r & Hr & Hsp)]; [by exists EmptyString|]. cbn [trimEnd].
  destruct (is_space c && String.eqb (trimEnd s) EmptyString) eqn:Hc.
  - apply andb_true_iff in Hc as [Hc Hempty]. apply String.eqb_eq in Hempty.
    rewrite Hempty in Hr. change (String.append EmptyString r) with r in Hr. subst r.
    exists (String c s). split; [reflexivity|]. cbn [all_space]. by rewrite Hc, Hsp.
  - exists r. split; [|done].
    change (String.append (String c (trimEnd s)) r)
      with (String c (String.append (trimEnd s) r)). by rewrite <- Hr.
Qed.

(** C9.  A selector string with a comma is split on commas, each part
    trimmed, each name read from the state on its own, and the values
    come back in the order of the names.  The hook compares with
    [shallow], and two reads between which none of the named properties
    changed are shallow-equal.  Split on commas: the parts hold no comma
    and, put together again with commas, are the selector.  Trimmed:
    each name is its part without the white space it starts and ends
    with. *)
Theorem batch_read_positional selector equalityFn (state : State) :
  has_comma selector = true →
  let h := stateHook (ByName selector) equalityFn in
  let props := trim <$> split_comma selector in
  hook_value h state = Many ((λ prop, state !!! prop) <$> props)
  ∧ (∀ i prop, props !! i = Some prop →
       ∃ items, hook_value h state = Many items ∧ items !! i = Some (state !!! prop))
  ∧ hook_equalityFn h = Some Shallow
  ∧ (∀ state' : State,
       (∀ prop, prop ∈ props → state' !!! prop = state !!! prop) →
       hook_equal h (hook_value h state) (hook_value h state') = true)
  ∧ String.concat "," (split_comma selector) = selector
  ∧ (∀ part, part ∈ split_comma selector →
       has_comma part = false
       ∧ ∃ l r,
           part = String.append l (String.append (trim part) r)
           ∧ all_space l = true ∧ all_space r = true
           ∧ (∀ c, head_char (trim part) = Some c → is_space c = false)
           ∧ (∀ c, last_char (trim part) = Some c → is_space c = false)).
Proof.
  intros Hcomma h props. subst h props. unfold stateHook. rewrite Hcomma.
  unfold hook_value, hook_equal. cbn [hook_selector hook_equalityFn shallow].
  split; [done|]. split; [|split; [done|split; [|split]]].
  - intros i prop Hi. eexists. split; [done|]. by rewrite list_lookup_fmap, Hi.
  - intros state' Hsame. by apply shallow_items_same.
  - apply concat_split_comma.
  - intros part Hpart. split.
    + pose proof (split_comma_parts selector) as Hparts.
      rewrite Forall_forall in Hparts. by apply Hparts.
    + destruct (trimStart_spaces part) as (l & Hl & Hlsp).
      destruct (trimEnd_spaces (trimStart part)) as (r & Hr & Hrsp).
      exists l, r. unfold trim. split; [by rewrite <- Hr|].
      split; [done|]. split; [done|]. split.
      * intros c Hc. by apply trimEnd_head, trimStart_head in Hc.
      * apply trimEnd_last.
Qed.

(** * The statements at concrete stores *)

Local Open Scope string_scope.

(** [createStore] on [ex_names] and [ex_addons] builds the registries
    [ex_computed] and the state [ex_before]. *)
Example ex_computed_registered tr :
  configComputed_loop [("full", ex_full); ("greet", ex_greet)] ex_empty ∅
    (mkWorld ex_names tr)
  = (mkWorld ex_names tr,
     Done (ex_computed,
           {[ "full" := VStr "Ada Lovelace"; "greet" := VStr "hi Ada Lovelace" ]})).
Proof. vm_compute. reflexivity. Qed.

Example ex_before_built :
  (createStore 2 ex_names (Some ex_addons) (mkWorld ∅ [])).1 = mkWorld ex_before [].
Proof. vm_compute. reflexivity. Qed.

Example ex_after_write :
  setState 1 ex_computed zustand_setState 0 ex_write_first None (mkWorld ex_before [])
  = (mkWorld ex_after [], Done tt).
Proof. vm_compute. reflexivity. Qed.

(** C1 as stated fails.  [greet] depends on the computed [full]; the
    write of [first] recomputes [full], whose value changes, and leaves
    [greet] as it was. *)
Lemma stale_after_dependency_recomputed :
  ¬ no_stale_computed ex_computed ex_before
      (store (setState 1 ex_computed zustand_setState 0 ex_write_first None
                (mkWorld ex_before [])).1).
Proof.
  rewrite ex_after_write. cbn [fst store].
  intros Hfresh. specialize (Hfresh "greet" ["full"] ex_greet).
  assert (ex_after !!! "greet" = apply ex_greet ex_after) as Hstale.
  { apply Hfresh; [by right; left | reflexivity |].
    exists "full". split; [by left|]. vm_compute. discriminate. }
  vm_compute in Hstale. discriminate.
Qed.

Lemma computed_fresh_after_commit_witness :
  ex_after !! "full" = Some (apply ex_full ex_after).
Proof.
  destruct (computed_fresh_after_commit ex_computed 0 ex_write_first None
              (mkWorld ex_before []) (mkWorld ex_after [])
              {[ "first" := VStr "Grace"; "full" := VStr "Grace Lovelace" ]}
              ex_before false [] "full" ["first"; "last"] [("greet", ["full"])] ex_full)
    as [Hfresh _].
  - reflexivity.
  - apply (bool_decide_unpack _). vm_compute. exact I.
  - reflexivity.
  - vm_compute. reflexivity.
  - apply Hfresh.
    + exists "first". split; [by left|]. vm_compute. eauto.
    + intros s1 s2 Hsame. cbn. rewrite (Hsame "first"), (Hsame "last"); [done| |].
      * right. by left.
      * by left.
    + apply (bool_decide_unpack _). vm_compute. exact I.
    + intros k deps_k Hk Hin. apply list_elem_of_singleton in Hin. injection Hin as -> ->.
      exfalso. revert Hk. apply (bool_decide_unpack _). vm_compute. exact I.
Defined.




Lemma watcher_failure_propagates_witness :
  setState 1 ex_raising zustand_setState 0 (Plain ex_abc) None (mkWorld ∅ [])
  = (mkWorld ex_abc [(0, WatcherCalled "a" (VNum 1) VUndefined);
                     (0, WatcherCalled "b" (VNum 2) VUndefined)],
     Raised "boom").
Proof.
  apply (watcher_failure_propagates 0 ex_raising 0 (Plain ex_abc) None (mkWorld ∅ [])
           [("a", λ _ _, Ret)] "b" (λ _ _, Raise "boom") [("c", λ _ _, Ret)]
           ex_abc ∅ false (mkWorld ex_abc [])
           (mkWorld ex_abc [(0, WatcherCalled "a" (VNum 1) VUndefined)])).
  - reflexivity.
  - apply (bool_decide_unpack _). vm_compute. exact I.
  - vm_compute. reflexivity.
  - vm_compute. eauto.
  - vm_compute. reflexivity.
  - vm_compute. reflexivity.
Defined.



(** C8 as stated fails.  The log level is [all] and the write carries
    [{ excludeFromLog: true }]: the call logs. *)
Lemma excludeFromLog_does_not_suppress :
  console_calls
    (at_depth 0
       (trace (setState 1 ex_logging zustand_setState 0 (Plain ex_count_one)
                 (Some {[ "excludeFromLog" := VBool true ]}) (mkWorld ∅ [])).1))
  ≠ [].
Proof. vm_compute. discriminate. Qed.

Lemma logging_suppressed_by_excludeInLogs_witness :
  ∃ evs,
    trace (setState 1 ex_logging zustand_setState 0 (Plain ex_count_one)
             (Some {[ "excludeInLogs" := VBool true ]}) (mkWorld ∅ [])).1 = evs
    ∧ console_calls (at_depth 0 evs) = [].
Proof.
  destruct (logging_suppressed_by_excludeInLogs 0 ex_logging 0 (Plain ex_count_one)
              (Some {[ "excludeInLogs" := VBool true ]}) (mkWorld ∅ [])
              (mkWorld ex_count_one []) (Done tt))
    as (evs & Ht & Hquiet & _).
  - vm_compute. reflexivity.
  - cbn [trace app] in Ht. exists evs. split.
    + rewrite <- Ht. vm_compute. reflexivity.
    + apply Hquiet. vm_compute. reflexivity.
Defined.

Lemma batch_read_positional_witness :
  hook_value (stateHook (ByName "a, b") None) {[ "a" := VNum 1; "b" := VNum 2 ]}
  = Many [VNum 1; VNum 2].
Proof.
  destruct (batch_read_positional "a, b" None {[ "a" := VNum 1; "b" := VNum 2 ]} eq_refl)
    as (Hread & _).
  rewrite Hread. vm_compute. reflexivity.
Defined.

(** * Further properties of the code *)

Local Close Scope string_scope.

(** ** [intersection] *)

(** [intersection(aArray, bArray)] keeps the elements of [bArray] that
    [aArray] has, in the order of [bArray] and each as many times as
    [bArray] has it; it is empty exactly when the two share nothing. *)
Theorem intersection_spec (aArray bArray : list string) :
  (∀ x, x ∈ intersection aArray bArray ↔ x ∈ bArray ∧ x ∈ aArray)
  ∧ intersection aArray bArray `sublist_of` bArray
  ∧ (intersection aArray bArray = [] ↔ ∀ x, x ∈ bArray → x ∉ aArray)
  ∧ (∀ x, x ∈ aArray →
       count_occ String.string_dec (intersection aArray bArray) x
       = count_occ String.string_dec bArray x).
Proof.
  unfold intersection. split; [|split; [|split]]; cycle 3.
  { intros x Hx. induction bArray as [|b bArray IH]; [done|]. cbn [List.filter].
    unfold includes at 1. destruct (bool_decide_reflect (b ∈ aArray)) as [Hin|Hnin].
    - cbn [count_occ]. destruct (String.string_dec b x); by rewrite IH.
    - cbn [count_occ]. destruct (String.string_dec b x) as [->|_]; [done | exact IH]. }
  - intros x. rewrite !list_elem_of_In, List.filter_In. unfold includes.
    by rewrite bool_decide_eq_true, list_elem_of_In.
  - induction bArray as [|b bArray IH]; [done|]. cbn [List.filter].
    destruct (includes aArray b); [by apply sublist_skip | by apply sublist_cons].
  - induction bArray as [|b bArray IH]; cbn [List.filter].
    + split; [|done]. intros _ x Hx. by apply not_elem_of_nil in Hx.
    + unfold includes at 1. destruct (bool_decide_reflect (b ∈ aArray)) as [Hin|Hnin].
      * split; [done|]. intros Hdisj. exfalso. apply (Hdisj b); [by left | done].
      * rewrite IH. split.
        -- intros Hdisj x [->|Hx]%elem_of_cons; [done | by apply Hdisj].
        -- intros Hdisj x Hx. apply Hdisj. by right.
Qed.

(** ** More on [getDeps] *)

Lemma take_word_all_word s : all_word (take_word s).1 = true.
Proof.
  induction s as [|c s IH]; [done|]. cbn [take_word].
  destruct (is_word c) eqn:Hc; [|done].
  destruct (take_word s) as [w rest]. cbn in *. by rewrite Hc.
Qed.

Lemma reg_group s full group :
  reg s = Some (full, group) → group ≠ EmptyString ∧ all_word group = true.
Proof.
  unfold reg. destruct (strip_prefix _ s) as [rest|]; [|done].
  pose proof (take_word_all_word rest) as Hw.
  destruct (take_word rest) as [w r]. cbn [fst] in Hw.
  destruct (String.eqb_spec w EmptyString) as [->|Hne]; [done|].
  by intros [= <- <-].
Qed.

Lemma reg2_group s full group :
  reg2 s = Some (full, group) → group ≠ EmptyString ∧ all_word group = true.
Proof.
  unfold reg2. destruct (strip_prefix _ s) as [rest|]; [|done].
  pose proof (take_word_all_word rest) as Hw.
  destruct (take_word rest) as [w r]. cbn [fst] in Hw.
  destruct (String.eqb_spec w EmptyString) as [->|Hne]; [done|].
  destruct (strip_prefix _ r); [|done]. by intros [= <- <-].
Qed.

Lemma matchAll_groups (re : Matcher) (P : string → Prop) skip pos next s :
  (∀ s' full group, re s' = Some (full, group) → P group) →
  Forall P (m1 <$> matchAll re skip pos next s).
Proof.
  intros Hre. revert skip pos next.
  induction s as [|c s IH]; intros skip pos next; [constructor|].
  cbn [matchAll]. destruct skip as [|k]; [|apply IH].
  destruct (re (String c s)) as [[full group]|] eqn:Hm; [|apply IH].
  cbn [fmap list_fmap m1]. apply Forall_cons_2; [by eapply Hre | apply IH].
Qed.

(** A dependency name is never empty and is made of word characters
    only. *)
Theorem getDeps_names_are_words fn name :
  name ∈ getDeps fn → name ≠ EmptyString ∧ all_word name = true.
Proof.
  rewrite getDeps_all_matches. intros [Hin|Hin]%elem_of_app.
  - revert name Hin. apply Forall_forall, matchAll_groups. apply reg_group.
  - revert name Hin. apply Forall_forall, matchAll_groups. apply reg2_group.
Qed.

Lemma strip_prefix_app p q s :
  strip_prefix (p ++ q)%string s =
  match strip_prefix p s with
  | Some rest => strip_prefix q rest
  | None => None
  end.
Proof.
  revert s. induction p as [|a p IH]; intros s; [done|].
  destruct s as [|b s]; [done|].
  change (String a p ++ q)%string with (String a (p ++ q)%string).
  cbn [strip_prefix]. destruct (Ascii.eqb a b); [apply IH | done].
Qed.

Lemma matchAll_none (re : Matcher) p skip pos next s :
  (∀ s', strip_prefix p s' = None → re s' = None) →
  occurs p s = false → matchAll re skip pos next s = [].
Proof.
  intros Hre. revert skip pos next.
  induction s as [|c s IH]; intros skip pos next Hocc; [done|].
  cbn [occurs] in Hocc.
  destruct (strip_prefix p (String c s)) eqn:Hp; [done|].
  cbn [matchAll]. destruct skip as [|k]; [|by apply IH].
  rewrite (Hre _ Hp). by apply IH.
Qed.

(** A derivation whose text does not mention [this] has no dependency:
    it is taken for a static value, whatever it computes. *)
Theorem getDeps_without_this fn :
  occurs "this" (toString fn) = false → getDeps fn = [].
Proof.
  intros Hocc. rewrite getDeps_all_matches.
  rewrite !(matchAll_none _ "this"%string); [done| |done| |done].
  - intros s' Hp. unfold reg2.
    change "this['"%string with ("this" ++ "['")%string.
    by rewrite strip_prefix_app, Hp.
  - intros s' Hp. unfold reg.
    change "this."%string with ("this" ++ ".")%string.
    by rewrite strip_prefix_app, Hp.
Qed.

(** The [Set] in [getDeps] holds match objects, each one distinct, so
    the result lists every match: the names of the [this.name] matches
    in the order of the text, then those of the [this['name']] matches,
    as many names as there are matches. *)
Theorem getDeps_lists_every_match fn :
  let matches := matchAll reg 0 0 0 (toString fn) in
  let matches2 := matchAll reg2 0 0 (length matches) (toString fn) in
  getDeps fn = (m1 <$> matches) ++ (m1 <$> matches2)
  ∧ length (getDeps fn) = length matches + length matches2.
Proof.
  cbn zeta. rewrite getDeps_all_matches. split; [done|].
  by rewrite length_app, !length_fmap.
Qed.

(** ** The store as built *)

(** While [createStore] builds the store no reaction is called, not
    even one registered on a computed property whose initial value is
    committed: the initial values are committed before the watchers are
    registered.  On the store it returns, the recomputation loop of a
    write never meets a registered entry without its function.  (For
    stages, if any, that only wrap the [set].) *)
Theorem createStore_calls_no_reaction fuel stateInitializer addons w :
  only_wraps_set addons →
  ∃ evs,
    trace (createStore fuel stateInitializer addons w).1 = trace w ++ evs
    ∧ Forall (λ e, is_watcher_call e.2 = false) evs
    ∧ ∀ us, (createStore fuel stateInitializer addons w).2 = Done us →
            ∀ partialState st, is_Some (newStateOf (registries us) partialState st).
Proof.
  intros Hmw.
  destruct (createStore_run fuel stateInitializer addons w Hmw)
    as (w' & us & uc & evs & Hrun & Hreg & _ & _ & Ht & Hquiet & _).
  exists evs. rewrite Hrun. cbn [fst snd]. split; [done|]. split; [done|].
  intros us' [= <-] partialState st. apply consistent_newStateOf. rewrite Hreg.
  unfold consistent, configWatchers. cbn [_computed _computedPropDependencies].
  apply register_consistent. intros name Hin. by apply not_elem_of_nil in Hin.
Qed.

Lemma fold_assign_fresh {A} (ws acc : list (string * A)) :
  NoDup (acc.*1 ++ ws.*1) →
  fold_left (λ acc '(propName, fn), assign propName fn acc) ws acc
  = acc ++ filter (λ entry, entry.1 ≠ proto) ws.
Proof.
  revert acc. induction ws as [|[propName fn] ws IH]; intros acc Hnd.
  - cbn. by rewrite app_nil_r.
  - cbn [fold_left]. cbn [fmap list_fmap fst] in Hnd.
    assert (propName ∉ acc.*1) as Hfresh.
    { apply NoDup_app in Hnd as (_ & Hdisj & _). intros Hin.
      apply (Hdisj propName Hin). by left. }
    destruct (decide (propName = proto)) as [->|Hne].
    + rewrite assign_proto, filter_cons_False by (cbn; auto). apply IH.
      apply NoDup_app in Hnd as (Hnd1 & Hdisj & Hnd2).
      apply NoDup_cons in Hnd2 as [_ Hnd2].
      apply NoDup_app. split; [done|]. split; [|done].
      intros k Hk Hin. apply (Hdisj k Hk). by right.
    + rewrite assign_fresh, filter_cons_True by done. rewrite IH.
      * by rewrite <- app_assoc.
      * rewrite fmap_app, <- app_assoc. exact Hnd.
Qed.

Lemma register_computed_Some computed inst k fn :
  _computed (register computed inst) !! k = Some fn →
  _computed inst !! k = Some fn ∨ ((k, fn) ∈ computed ∧ getDeps fn ≠ [] ∧ k ≠ proto).
Proof.
  revert inst. induction computed as [|[key f] rest IH]; intros inst Hk; [by left|].
  cbn [register] in Hk. apply IH in Hk as [Hk|(Hin & Hdeps & Hp)].
  - destruct (getDeps f) as [|x l] eqn:Hd; [by left|]. cbn in Hk.
    unfold assign_entry in Hk. destruct (String.eqb_spec key proto) as [->|Hne]; [by left|].
    destruct (decide (key = k)) as [->|Hkey].
    + rewrite lookup_insert_eq in Hk. injection Hk as ->.
      right. split; [by left|]. by rewrite Hd.
    + rewrite lookup_insert_ne in Hk by done. by left.
  - right. split; [by right | done].
Qed.

(** The registries of a built store, for add-ons whose keys are distinct
    (as the keys of an object are) and whose stages, if any, only wrap
    the [set]: the watchers are the given ones in the given order, the
    dependency registry lists the computed entries in which a dependency
    was found, in the given order, and [_computed] holds the functions
    of exactly these entries.  Nothing is registered for the key
    [__proto__]. *)
Theorem createStore_registers_addons fuel stateInitializer addons w :
  only_wraps_set addons →
  NoDup (default [] (addons ≫= computed)).*1 →
  NoDup (default [] (addons ≫= watchers)).*1 →
  ∃ w' us,
    createStore fuel stateInitializer addons w = (w', Done us)
    ∧ _watchers (registries us)
      = filter (λ entry, entry.1 ≠ proto) (default [] (addons ≫= watchers))
    ∧ _computedPropDependencies (registries us)
      = registered (default [] (addons ≫= computed))
    ∧ (∀ key fn,
         _computed (registries us) !! key = Some fn
         ↔ (key, fn) ∈ default [] (addons ≫= computed) ∧ getDeps fn ≠ [] ∧ key ≠ proto).
Proof.
  intros Hmw Hcs Hws.
  destruct (createStore_run fuel stateInitializer addons w Hmw)
    as (w' & us & uc & evs & Hrun & Hreg & _).
  exists w', us. split; [done|]. rewrite Hreg.
  unfold configWatchers.
  cbn [_watchers _computedPropDependencies _computed _settings].
  rewrite !(proj1 (register_fields _ _)).
  cbn [initial_registries _watchers]. split; [|split].
  - by rewrite fold_assign_fresh.
  - by rewrite register_dependencies.
  - intros key fn. split.
    + intros [Hin|?]%register_computed_Some; [|done].
      cbn in Hin. by rewrite lookup_empty in Hin.
    + intros (Hin & Hdeps & Hp). by apply register_computed.
Qed.

Lemma staged_present st computed acc k :
  k ∈ computed.*1 → is_Some (staged st computed acc !! k).
Proof.
  revert acc. induction computed as [|[key fn] rest IH]; intros acc Hk.
  - by apply not_elem_of_nil in Hk.
  - cbn [staged]. destruct (decide (k ∈ rest.*1)) as [Hin|Hnin]; [by apply IH|].
    cbn [fmap list_fmap fst] in Hk. apply elem_of_cons in Hk as [->|Hk]; [|done].
    rewrite staged_other by done. rewrite lookup_insert_eq. by eexists.
Qed.

(** The state of a built store, for stages, if any, that only wrap
    the [set]: every computed name is a property of it, whether a
    dependency was found for it or not, and every other property is as
    the state initializer gave it.  (Of the key [__proto__] nothing is
    said: zustand's merge does not keep it.) *)
Theorem createStore_initial_keys fuel stateInitializer addons w :
  only_wraps_set addons →
  ∃ w' us,
    createStore fuel stateInitializer addons w = (w', Done us)
    ∧ ∀ k, k ≠ proto →
        (k ∈ (default [] (addons ≫= computed)).*1 → is_Some (store w' !! k))
        ∧ (k ∉ (default [] (addons ≫= computed)).*1 →
           store w' !! k = stateInitializer !! k).
Proof.
  intros Hmw.
  destruct (createStore_run fuel stateInitializer addons w Hmw)
    as (w' & us & uc & evs & Hrun & _ & Huc & Hstore & _).
  exists w', us. split; [done|]. intros k _. rewrite Hstore. split.
  - intros Hk. rewrite <- (assoc_L (∪)).
    destruct (uc !! k) as [v|] eqn:Hv.
    + rewrite (lookup_union_Some_l _ _ _ _ Hv). by eexists.
    + rewrite lookup_union_r by done.
      destruct (staged_present stateInitializer
                  (default [] (addons ≫= computed)) ∅ k Hk) as [v' Hv'].
      rewrite (lookup_union_Some_l _ _ _ _ Hv'). by eexists.
  - intros Hk. rewrite <- (assoc_L (∪)).
    rewrite lookup_union_r.
    + rewrite lookup_union_r; [done|]. by rewrite staged_other.
    + rewrite (recompute_other _ _ _ _ _ _ k Huc); [done|].
      intros Hin. apply register_keys in Hin as [Hin|Hin]; [|done].
      by apply not_elem_of_nil in Hin.
Qed.

(** A computed property none of whose dependencies is itself a computed
    name starts as its derivation applied to the initializer's state
    overlaid with the values staged for the entries before it.  (For
    stages, if any, that only wrap the [set], and a name other than
    [__proto__].) *)
Theorem createStore_initial_value fuel stateInitializer addons w pre key fn post :
  only_wraps_set addons →
  default [] (addons ≫= computed) = pre ++ (key, fn) :: post →
  NoDup (default [] (addons ≫= computed)).*1 →
  key ≠ proto →
  (∀ d, d ∈ getDeps fn → d ∉ (default [] (addons ≫= computed)).*1) →
  ∃ w' us,
    createStore fuel stateInitializer addons w = (w', Done us)
    ∧ store w' !! key
      = Some (apply fn (staged stateInitializer pre ∅ ∪ stateInitializer)).
Proof.
  intros Hmw Hcs Hnd _ Hplain.
  destruct (createStore_run fuel stateInitializer addons w Hmw)
    as (w' & us & uc & evs & Hrun & _ & Huc & Hstore & _).
  exists w', us. split; [done|]. rewrite Hstore.
  set (init := stateInitializer) in *.
  set (cs := default [] (addons ≫= computed)) in *.
  pose proof Hnd as Hnd'. rewrite Hcs, fmap_app, fmap_cons in Hnd'. cbn [fst] in Hnd'.
  apply NoDup_app in Hnd' as (_ & _ & Hnd2). apply NoDup_cons in Hnd2 as [Hkeypost _].
  assert (staged init cs ∅ !! key = Some (apply fn (staged init pre ∅ ∪ init))) as Hstaged.
  { rewrite Hcs, staged_app. cbn [staged]. rewrite staged_other by done.
    apply lookup_insert_eq. }
  assert (uc !! key = None) as Hnot.
  { rewrite register_dependencies in Huc by (cbn; exact Hnd). cbn [app initial_registries
      _computedPropDependencies] in Huc.
    destruct (decide (key ∈ (registered cs).*1)) as [Hin|Hnin].
    - apply list_elem_of_fmap in Hin as ([k deps] & Hk & Hin). cbn in Hk. subst k.
      rewrite (recompute_untouched _ _ _ _ _ _ key deps (registered_NoDup cs Hnd) Huc Hin);
        [done|].
      apply registered_origin in Hin as (fn' & Hfn' & -> & _).
      assert (fn' = fn) as ->.
      { apply (NoDup_keys_unique cs key); [done..|].
        rewrite Hcs. apply elem_of_app. right. by left. }
      intros (d & Hd & [v Hv]). apply (Hplain d Hd).
      destruct (decide (d ∈ cs.*1)) as [?|Hout]; [done|].
      rewrite staged_other in Hv by done. by rewrite lookup_empty in Hv.
    - by rewrite (recompute_other _ _ _ _ _ _ key Huc). }
  rewrite <- (assoc_L (∪)), lookup_union_r by done.
  by rewrite (lookup_union_Some_l _ _ _ _ Hstaged).
Qed.

(** ** The console trace of a write *)

(** The entries one call of [setState] adds at its own depth, whatever
    its outcome. *)
Lemma setState_events fuel inst d partialState setSettings w w' out :
  setState (S fuel) inst zustand_setState d partialState setSettings w = (w', out) →
  let lo := logOperationsOf (_settings inst) setSettings in
  ∃ evs uc ns called,
    trace w' = trace w ++ evs
    ∧ at_depth d evs =
        commit_events inst lo (store w) (resolve partialState (store w)) uc
        ++ flat_map (call_events lo ns (store w)) called
        ++ match out with
           | Done _ => tail_events inst lo (store w')
           | _ => []
           end.
Proof.
  intros Hrun lo. apply setState_run in Hrun. cbn zeta in Hrun. fold lo in Hrun.
  destruct (recompute _ _ _ _ _) as [uc|].
  - destruct Hrun as (evs & called & Ht & _ & Hd & _).
    by exists evs, (Some uc), (uc ∪ resolve partialState (store w)), called.
  - destruct Hrun as [-> ->]. eexists _, None, ∅, []. split; [reflexivity|].
    cbn [trace flat_map app]. by rewrite at_depth_tagged, app_nil_r.
Qed.

Lemma elem_of_commit_events inst lo cur changes uc e :
  e ∈ commit_events inst lo cur changes uc →
  lo = true
  ∧ (e = ConsoleGroup (template (name (_settings inst)) ++ " state changed")%string
     ∨ (e = ConsoleLog "Previous State"%string (Some cur) ∧ wants_all inst = true)
     ∨ e = ConsoleLog "Applying"%string (Some changes)
     ∨ ∃ u, e = ConsoleLog "Updating computed values"%string (Some u)).
Proof.
  unfold commit_events. destruct lo.
  - intros Hin. split; [done|]. cbn [andb] in Hin.
    apply elem_of_app in Hin as [Hin|Hin].
    { apply list_elem_of_singleton in Hin. by left. }
    apply elem_of_app in Hin as [Hin|Hin].
    { destruct (wants_all inst); [|by apply not_elem_of_nil in Hin].
      apply list_elem_of_singleton in Hin. right. by left. }
    apply elem_of_app in Hin as [Hin|Hin].
    { apply list_elem_of_singleton in Hin. right. right. by left. }
    destruct uc as [u|]; [|by apply not_elem_of_nil in Hin].
    rewrite andb_true_r in Hin. destruct (nonempty u); [|by apply not_elem_of_nil in Hin].
    apply list_elem_of_singleton in Hin. right. right. right. by exists u.
  - cbn [andb]. destruct uc as [u|]; [rewrite andb_false_r|]; cbn;
      by intros ?%not_elem_of_nil.
Qed.

Lemma elem_of_call_events lo ns cur called e :
  e ∈ flat_map (call_events lo ns cur) called →
  (∃ p, e = ConsoleLog ("Triggering watcher: " ++ p)%string None)
  ∨ is_watcher_call e = true.
Proof.
  induction called as [|p called IH]; [by intros ?%not_elem_of_nil|].
  cbn [flat_map]. intros [Hin|Hin]%elem_of_app; [|by apply IH].
  unfold call_events in Hin. apply elem_of_app in Hin as [Hin|Hin].
  - destruct lo; [|by apply not_elem_of_nil in Hin].
    apply list_elem_of_singleton in Hin. left. by exists p.
  - apply list_elem_of_singleton in Hin. right. by subst e.
Qed.

Lemma elem_of_tail_events inst lo final e :
  e ∈ tail_events inst lo final ↔
  lo = true ∧ ((e = ConsoleLog "New State"%string (Some final) ∧ wants_all inst = true)
               ∨ e = ConsoleGroupEnd).
Proof.
  unfold tail_events. destruct lo, (wants_all inst); cbn [andb app];
    rewrite ?elem_of_cons, ?elem_of_nil; split; intros H;
    repeat match goal with
           | H : _ ∧ _ |- _ => destruct H
           | H : _ ∨ _ |- _ => destruct H
           end; try done; auto.
Qed.

(** A write that logs opens its console group first thing and closes
    it when it returns.  When a reaction raises (or the write does not
    return), the group it opened is left open. *)
Theorem console_group_closed_iff_returns fuel inst d partialState setSettings w w' out :
  setState (S fuel) inst zustand_setState d partialState setSettings w = (w', out) →
  ∃ evs,
    trace w' = trace w ++ evs
    ∧ (logOperationsOf (_settings inst) setSettings = true →
       head (at_depth d evs)
       = Some (ConsoleGroup (template (name (_settings inst)) ++ " state changed")%string))
    ∧ (ConsoleGroupEnd ∈ at_depth d evs
       ↔ logOperationsOf (_settings inst) setSettings = true ∧ out = Done tt).
Proof.
  intros Hrun. destruct (setState_events _ _ _ _ _ _ _ _ Hrun)
    as (evs & uc & ns & called & Ht & Hd).
  exists evs. split; [done|]. rewrite Hd. split.
  - intros ->. reflexivity.
  - rewrite !elem_of_app. split.
    + intros [Hin|[Hin|Hin]].
      * apply elem_of_commit_events in Hin as (_ & [?|[[? _]|[?|[u ?]]]]); done.
      * apply elem_of_call_events in Hin as [[p ?]|?]; done.
      * destruct out as [[]| |]; [|by apply not_elem_of_nil in Hin..].
        apply elem_of_tail_events in Hin as [? _]. done.
    + intros [Hlo ->]. right. right. apply elem_of_tail_events. split; [done|]. by right.
Qed.

Lemma trigger_label_distinct p :
  ("Triggering watcher: " ++ p)%string ≠ "Previous State"%string
  ∧ ("Triggering watcher: " ++ p)%string ≠ "New State"%string.
Proof. split; intros H; vm_compute in H; discriminate. Qed.

(** The state is logged at level [all] only, before the write as
    [Previous State] and, when the write returns, after it as
    [New State] with the state the store then holds.  Any other level
    that is not [none] logs the changes without the states. *)
Theorem state_logged_at_level_all fuel inst d partialState setSettings w w' out :
  setState (S fuel) inst zustand_setState d partialState setSettings w = (w', out) →
  ∃ evs,
    trace w' = trace w ++ evs
    ∧ (∀ payload,
         ConsoleLog "Previous State"%string payload ∈ at_depth d evs
         ↔ logOperationsOf (_settings inst) setSettings = true
           ∧ logLevel (_settings inst) = Some LogLevel_All
           ∧ payload = Some (store w))
    ∧ (∀ payload,
         ConsoleLog "New State"%string payload ∈ at_depth d evs
         ↔ logOperationsOf (_settings inst) setSettings = true
           ∧ logLevel (_settings inst) = Some LogLevel_All
           ∧ out = Done tt
           ∧ payload = Some (store w')).
Proof.
  intros Hrun. destruct (setState_events _ _ _ _ _ _ _ _ Hrun)
    as (evs & uc & ns & called & Ht & Hd).
  exists evs. split; [done|]. rewrite Hd.
  assert (wants_all inst = true ↔ logLevel (_settings inst) = Some LogLevel_All) as Hall
    by (unfold wants_all; apply bool_decide_eq_true).
  split; intros payload; rewrite !elem_of_app; split.
  - intros [Hin|[Hin|Hin]].
    + apply elem_of_commit_events in Hin as (Hlo & [?|[[[= ->] Hw]|[?|[u ?]]]]); try done.
      by rewrite <- Hall.
    + apply elem_of_call_events in Hin as [[p Hp]|Hp]; [|done].
      apply (f_equal (λ e, match e with ConsoleLog l _ => l | _ => EmptyString end)) in Hp.
      cbn beta iota in Hp. symmetry in Hp. by apply trigger_label_distinct in Hp.
    + destruct out as [[]| |]; [|by apply not_elem_of_nil in Hin..].
      apply elem_of_tail_events in Hin as (_ & [[? _]|?]); done.
  - intros (Hlo & Hlevel & ->). left. unfold commit_events. rewrite Hlo.
    apply Hall in Hlevel. rewrite Hlevel. cbn [andb].
    apply elem_of_app. right. apply elem_of_app. left. by left.
  - intros [Hin|[Hin|Hin]].
    + apply elem_of_commit_events in Hin as (_ & [?|[[? _]|[?|[u ?]]]]); done.
    + apply elem_of_call_events in Hin as [[p Hp]|Hp]; [|done].
      apply (f_equal (λ e, match e with ConsoleLog l _ => l | _ => EmptyString end)) in Hp.
      cbn beta iota in Hp. symmetry in Hp. by apply trigger_label_distinct in Hp.
    + destruct out as [[]| |]; [|by apply not_elem_of_nil in Hin..].
      apply elem_of_tail_events in Hin as (Hlo & [[[= ->] Hw]|?]); [|done].
      by rewrite <- Hall.
  - intros (Hlo & Hlevel & -> & ->). right. right.
    apply elem_of_tail_events. split; [done|]. left. split; [done|]. by apply Hall.
Qed.

(** ** The commit, property by property *)

(** After the commit of a write every property holds, in this order of
    precedence, the value recomputed for it, the value the write gives
    it, or the value it had: a recomputed value wins over an explicit
    one, and what is neither written nor recomputed is left alone. *)
Theorem commit_by_key inst d partialState setSettings w wc newState cur lo :
  commitPhase inst d (partialState, setSettings) zustand_setState w
    = (wc, Done (newState, cur, lo)) →
  ∃ uc,
    recompute (_computed inst) (store w) (resolve partialState (store w))
      (_computedPropDependencies inst) ∅ = Some uc
    ∧ ∀ k,
        store wc !! k =
        match uc !! k with
        | Some v => Some v
        | None =>
            match resolve partialState (store w) !! k with
            | Some v => Some v
            | None => store w !! k
            end
        end.
Proof.
  intros Hcommit. rewrite commitPhase_run in Hcommit. cbn zeta in Hcommit.
  destruct (recompute _ _ _ _ _) as [uc|]; [|done].
  injection Hcommit as <- <- <- <-. exists uc. split; [done|].
  intros k. cbn [store]. rewrite !lookup_union.
  by destruct (uc !! k), (resolve partialState (store w) !! k), (store w !! k).
Qed.

(** ** Reactions *)

(** A reaction that calls [this.get()] is handed the committed state,
    recomputed values included, when the reactions called before it did
    not write. *)
Theorem reaction_reads_committed_state
    inst apiSetState d partialState setSettings w wc newState cur lo ws1 K
    (body : value → value → State → Script) ws2 :
  commitPhase inst d (partialState, setSettings) zustand_setState w
    = (wc, Done (newState, cur, lo)) →
  (∀ propName (fn : Reaction) n o, (propName, fn) ∈ ws1 → read_only (fn n o)) →
  dispatchWatchers apiSetState d lo newState cur
    (ws1 ++ (K, λ n o, CallGet (body n o)) :: ws2) wc
  = dispatchWatchers apiSetState d lo newState cur
      (ws1 ++ (K, λ n o, body n o (newState ∪ store w)) :: ws2) wc.
Proof.
  intros Hcommit Hro.
  assert (store wc = newState ∪ store w) as Hstore.
  { rewrite commitPhase_run in Hcommit. cbn zeta in Hcommit.
    destruct (recompute _ _ _ _ _); [|done]. by injection Hcommit as <- <- <- <-. }
  rewrite !dispatchWatchers_app, !run_bind.
  pose proof (read_only_dispatchWatchers apiSetState d lo newState cur ws1 wc Hro) as Hsame.
  destruct (dispatchWatchers apiSetState d lo newState cur ws1 wc) as [w1 [[]| |]];
    [|done..].
  cbn [fst] in Hsame. cbn [dispatchWatchers]. rewrite !run_bind. cbn [fst].
  destruct (includes (Object_keys newState) K); [|done].
  rewrite !callWatcher_unfold. cbn [runScript]. rewrite run_bind. cbn [getState store].
  by rewrite Hsame, Hstore.
Qed.

(** Nothing guards against a reaction that writes the key it watches:
    the write it makes dispatches the same reaction again, and the call
    never returns, however deep the nesting is allowed to go. *)
Theorem watcher_writing_its_own_key_never_returns
    inst ws1 K (again : value → value → value) setSettings' next ws2 :
  consistent inst →
  _watchers inst
  = ws1 ++ (K, λ n o, CallSet (Plain {[ K := again n o ]}) setSettings' next) :: ws2 →
  (∀ propName (fn : Reaction) n o, (propName, fn) ∈ ws1 → returns (fn n o)) →
  ∀ fuel d v setSettings w,
    (setState fuel inst zustand_setState d (Plain {[ K := v ]}) setSettings w).2 = OutOfFuel.
Proof.
  intros Hc Hreg Hret fuel.
  induction fuel as [|fuel IH]; intros d v setSettings w; [done|].
  cbn [setState]. unfold setMiddleware. rewrite run_bind, commitPhase_run. cbn zeta.
  destruct (recompute_total (_computed inst) (store w) (resolve (Plain {[ K := v ]}) (store w))
              (_computedPropDependencies inst) ∅ Hc) as [uc ->].
  cbn beta iota. rewrite Hreg, run_bind, dispatchWatchers_app, run_bind.
  match goal with
  | |- context [dispatchWatchers ?s ?d' ?lo ?ns ?cur ws1 ?w0] =>
      destruct (returns_dispatchWatchers s d' lo ns cur ws1 w0 Hret) as [w1 ->]
  end.
  cbn [dispatchWatchers]. rewrite run_bind. cbn [fst].
  assert (includes (Object_keys (uc ∪ resolve (Plain {[ K := v ]}) (store w))) K = true)
    as ->.
  { apply includes_keys. cbn [resolve]. destruct (uc !! K) as [u|] eqn:Hu.
    - exists u. by apply lookup_union_Some_l.
    - exists v. rewrite lookup_union_r by done. apply lookup_singleton_eq. }
  rewrite callWatcher_unfold. cbn [runScript]. rewrite run_bind.
  match goal with
  | |- context [setState fuel inst zustand_setState (S d) (Plain {[ K := ?v' ]}) ?ss ?w0] =>
      pose proof (IH (S d) v' ss w0) as Hnested;
      destruct (setState fuel inst zustand_setState (S d) (Plain {[ K := v' ]}) ss w0)
        as [w2 o2]
  end.
  cbn [snd] in Hnested. by subst o2.
Qed.

(** The dispatch reaches a watcher whose key is committed when the
    reactions registered before it return, whatever happens after. *)
Lemma dispatchWatchers_reaches apiSetState d lo ns cur ws1 K (fn : Reaction) ws2 w w' out :
  (∀ partial setSettings, deeper (S d) (apiSetState partial setSettings)) →
  NoDup (ws1 ++ (K, fn) :: ws2).*1 →
  (∀ propName (f : Reaction) n o, (propName, f) ∈ ws1 → returns (f n o)) →
  is_Some (ns !! K) →
  dispatchWatchers apiSetState d lo ns cur (ws1 ++ (K, fn) :: ws2) w = (w', out) →
  ∃ evs,
    trace w' = trace w ++ evs
    ∧ Forall (λ e, d ≤ e.1) evs
    ∧ watcher_calls K (at_depth d evs) = [(ns !!! K, cur !!! K)].
Proof.
  intros Hset Hnd Hret Hsome Hrun.
  rewrite fmap_app, fmap_cons in Hnd. cbn [fst] in Hnd.
  apply NoDup_app in Hnd as (_ & Hdisj & Hnd2). apply NoDup_cons in Hnd2 as [HK2 _].
  assert (K ∉ ws1.*1) as HK1 by (intros Hin; apply (Hdisj K Hin); by left).
  rewrite dispatchWatchers_app, run_bind in Hrun.
  destruct (returns_dispatchWatchers apiSetState d lo ns cur ws1 w Hret) as [w1 H1].
  rewrite H1 in Hrun.
  destruct (dispatchWatchers_run _ _ _ _ _ _ _ _ _ Hset H1)
    as (evs1 & called1 & Ht1 & Hall1 & Hpre1 & Hd1 & _).
  cbn [dispatchWatchers] in Hrun. rewrite run_bind in Hrun. cbn [fst] in Hrun.
  rewrite (proj2 (includes_keys _ _) Hsome) in Hrun.
  destruct (callWatcher apiSetState d lo ns cur (K, fn) w1) as [w2 out2] eqn:H2.
  destruct (callWatcher_run _ _ _ _ _ _ _ _ _ _ Hset H2) as (evs2 & Ht2 & Hall2 & Hd2).
  assert (∃ evs3 called3,
            trace w' = trace w2 ++ evs3
            ∧ Forall (λ e, d ≤ e.1) evs3
            ∧ called3 `prefix_of` fired ns ws2
            ∧ at_depth d evs3 = flat_map (call_events lo ns cur) called3)
    as (evs3 & called3 & Ht3 & Hall3 & Hpre3 & Hd3).
  { destruct out2 as [[]| e |].
    - destruct (dispatchWatchers_run _ _ _ _ _ _ _ _ _ Hset Hrun)
        as (evs3 & called3 & ? & ? & ? & ? & _). by exists evs3, called3.
    - injection Hrun as <- <-. exists [], []. rewrite app_nil_r.
      split; [done|]. split; [done|]. split; [apply prefix_nil | done].
    - injection Hrun as <- <-. exists [], []. rewrite app_nil_r.
      split; [done|]. split; [done|]. split; [apply prefix_nil | done]. }
  exists (evs1 ++ evs2 ++ evs3). rewrite Ht3, Ht2, Ht1, <- !app_assoc.
  split; [done|]. split; [by rewrite !Forall_app|].
  rewrite !at_depth_app, Hd1, Hd2, Hd3, !watcher_calls_app.
  rewrite watcher_calls_call_events, decide_True by done.
  rewrite !watcher_calls_absent; [done| |].
  - intros Hin. destruct Hpre3 as [k Hk].
    assert (K ∈ fired ns ws2) as Hf by (rewrite Hk; apply elem_of_app; by left).
    by apply elem_of_fired in Hf as [? _].
  - intros Hin. destruct Hpre1 as [k Hk].
    assert (K ∈ fired ns ws1) as Hf by (rewrite Hk; apply elem_of_app; by left).
    by apply elem_of_fired in Hf as [? _].
Qed.

(** A watcher on a computed property is called by a write that touches
    one of the property's dependencies, though the write does not name
    the property: when the reactions registered before it return, it is
    called once, with the value just recomputed and the value stored
    before, whatever the write ends in after that. *)
Theorem watcher_on_computed_property
    fuel inst d partialState setSettings w w' out pre E deps post
    ws1 (reaction : Reaction) ws2 :
  consistent inst →
  _computedPropDependencies inst = pre ++ (E, deps) :: post →
  NoDup (_computedPropDependencies inst).*1 →
  _watchers inst = ws1 ++ (E, reaction) :: ws2 →
  NoDup (_watchers inst).*1 →
  (∀ propName (f : Reaction) n o, (propName, f) ∈ ws1 → returns (f n o)) →
  touched (resolve partialState (store w)) deps →
  setState (S fuel) inst zustand_setState d partialState setSettings w = (w', out) →
  ∃ evs fn uc_pre,
    trace w' = trace w ++ evs
    ∧ _computed inst !! E = Some fn
    ∧ recompute (_computed inst) (store w) (resolve partialState (store w)) pre ∅
      = Some uc_pre
    ∧ watcher_calls E (at_depth d evs)
      = [(apply fn (uc_pre ∪ (resolve partialState (store w) ∪ store w)), store w !!! E)].
Proof.
  intros Hc Hdeps Hnd Hws Hndw Hret Htouched Hrun.
  destruct (recompute_total (_computed inst) (store w) (resolve partialState (store w))
              (_computedPropDependencies inst) ∅ Hc) as [uc Huc].
  pose proof Huc as Huc'. rewrite Hdeps in Huc', Hnd.
  destruct (recompute_at _ _ _ _ _ _ _ _ Hnd Huc')
    as (uc_pre & uc_E & Hpre & _ & _ & _ & Hfresh).
  destruct (Hfresh Htouched) as (fn & Hfn & HE).
  assert ((uc ∪ resolve partialState (store w)) !! E
          = Some (apply fn (uc_pre ∪ (resolve partialState (store w) ∪ store w)))) as Hnew
    by (by apply lookup_union_Some_l).
  cbn [setState] in Hrun. unfold setMiddleware in Hrun.
  rewrite run_bind, commitPhase_run in Hrun. cbn zeta in Hrun. rewrite Huc in Hrun.
  cbn beta iota in Hrun. rewrite run_bind, Hws in Hrun. rewrite Hws in Hndw.
  match type of Hrun with
  | context [dispatchWatchers ?s d ?lo ?ns ?cur ?ws ?w0] =>
      destruct (dispatchWatchers s d lo ns cur ws w0) as [w2 out2] eqn:Hdisp
  end.
  destruct (dispatchWatchers_reaches _ _ _ _ _ _ _ _ _ _ _ _
              (deeper_setState fuel inst (S d)) Hndw Hret (ex_intro _ _ Hnew) Hdisp)
    as (evs2 & Ht2 & _ & Hcalls).
  cbn [trace] in Ht2. rewrite lookup_total_alt, Hnew in Hcalls. cbn in Hcalls.
  exists (tagged d (commit_events inst (logOperationsOf (_settings inst) setSettings)
                      (store w) (resolve partialState (store w)) (Some uc))
          ++ evs2
          ++ match out2 with
             | Done _ => tagged d (tail_events inst
                                     (logOperationsOf (_settings inst) setSettings) (store w2))
             | _ => []
             end), fn, uc_pre.
  split; [|split; [done|split; [done|]]].
  - destruct out2 as [[]| e |].
    + rewrite tail_run in Hrun. injection Hrun as <- _. cbn [trace].
      by rewrite Ht2, <- !app_assoc.
    + injection Hrun as <- _. by rewrite Ht2, app_nil_r, <- !app_assoc.
    + injection Hrun as <- _. by rewrite Ht2, app_nil_r, <- !app_assoc.
  - rewrite !at_depth_app, at_depth_tagged, !watcher_calls_app, Hcalls.
    rewrite (watcher_calls_console _ _ (commit_events_console _ _ _ _ _)).
    destruct out2 as [[]| e |]; cbn [app at_depth]; [|done..].
    by rewrite at_depth_tagged, (watcher_calls_console _ _ (tail_events_console _ _ _)).
Qed.

(** ** What no write does *)

Lemma keeps_ret {A} (a : A) : keeps_keys (mret a : M A).
Proof. by intros w k Hk. Qed.

Lemma keeps_emit d e : keeps_keys (emit d e).
Proof. by intros w k Hk. Qed.

Lemma keeps_when cond (effect : M unit) : keeps_keys effect → keeps_keys (when cond effect).
Proof. destruct cond; [done|]. intros _. apply keeps_ret. Qed.

Lemma keeps_bind {A B} (m : M A) (f : A → M B) :
  keeps_keys m → (∀ a, keeps_keys (f a)) → keeps_keys (m ≫= f).
Proof.
  intros Hm Hf w k Hk. rewrite run_bind. specialize (Hm w k Hk).
  destruct (m w) as [w1 [a| |]]; cbn [fst] in *; [by apply Hf | done..].
Qed.

Lemma keeps_zustand partial : keeps_keys (zustand_setState partial None).
Proof.
  intros w k [v Hv]. cbn [zustand_setState fst store].
  destruct (resolve partial (store w) !! k) as [u|] eqn:Hu.
  - exists u. by apply lookup_union_Some_l.
  - exists v. by rewrite lookup_union_r.
Qed.

Lemma keeps_runScript apiSetState s :
  (∀ partial setSettings, keeps_keys (apiSetState partial setSettings)) →
  keeps_keys (runScript apiSetState s).
Proof.
  intros Hset. induction s as [| e | partial setSettings next IH | next IH]; cbn.
  - apply keeps_ret.
  - by intros w k Hk.
  - apply keeps_bind; [apply Hset | done].
  - apply keeps_bind; [by intros w k Hk | done].
Qed.

Lemma keeps_dispatchWatchers apiSetState d lo ns cur entries :
  (∀ partial setSettings, keeps_keys (apiSetState partial setSettings)) →
  keeps_keys (dispatchWatchers apiSetState d lo ns cur entries).
Proof.
  intros Hset. induction entries as [|[propName fn] rest IH]; cbn [dispatchWatchers].
  - apply keeps_ret.
  - apply keeps_bind; [|done].
    destruct (includes _ _); [|apply keeps_ret]. unfold callWatcher.
    apply keeps_bind; [apply keeps_when, keeps_emit | intros _].
    apply keeps_bind; [apply keeps_emit | intros _].
    by apply keeps_runScript.
Qed.

Lemma keeps_setMiddleware inst apiSetState d args :
  (∀ partial setSettings, keeps_keys (apiSetState partial setSettings)) →
  keeps_keys (setMiddleware inst apiSetState d args zustand_setState).
Proof.
  intros Hset. destruct args as [partialState setSettings].
  unfold setMiddleware, commitPhase.
  apply keeps_bind.
  - apply keeps_bind; [by intros w k Hk | intros currentState].
    apply keeps_bind; [apply keeps_when, keeps_emit | intros _].
    apply keeps_bind; [apply keeps_when, keeps_emit | intros _].
    apply keeps_bind; [apply keeps_when, keeps_emit | intros _].
    destruct (recompute _ _ _ _ _); [|by intros w k Hk].
    apply keeps_bind; [apply keeps_when, keeps_when, keeps_emit | intros _].
    apply keeps_bind; [apply keeps_zustand | intros _]. apply keeps_ret.
  - intros [[newState currentState] lo].
    apply keeps_bind; [by apply keeps_dispatchWatchers | intros _].
    apply keeps_bind; [|intros _; apply keeps_when, keeps_emit].
    apply keeps_when, keeps_bind; [by intros w k Hk | intros st]. apply keeps_emit.
Qed.

(** No write through the add-ons takes a property out of the state,
    neither the write itself nor any write a reaction makes within it:
    the commit is always a merge, and the second argument of a write is
    never handed to zustand as its [replace] flag. *)
Theorem no_write_removes_a_property fuel inst d partialState setSettings w k :
  is_Some (store w !! k) →
  is_Some (store (setState fuel inst zustand_setState d partialState setSettings w).1 !! k).
Proof.
  revert d partialState setSettings w k.
  induction fuel as [|fuel IH]; intros d partialState setSettings w k Hk; [done|].
  cbn [setState]. apply keeps_setMiddleware; [|done].
  intros partial ss w1 k1 Hk1. by apply IH.
Qed.

(** ** A store that does not log *)

Lemma logOperationsOf_none settings setSettings :
  logLevel settings = Some LogLevel_None → logOperationsOf settings setSettings = false.
Proof.
  intros Hlevel. rewrite logOperationsOf_spec, Hlevel.
  rewrite bool_decide_eq_true_2 by done. apply andb_false_r.
Qed.

Lemma silent_dispatchWatchers apiSetState d ns cur entries :
  (∀ partial setSettings,
     appends (λ e, is_console e.2 = false) (apiSetState partial setSettings)) →
  appends (λ e, is_console e.2 = false)
    (dispatchWatchers apiSetState d false ns cur entries).
Proof.
  intros Hset. induction entries as [|[propName fn] rest IH]; cbn [dispatchWatchers].
  - apply appends_ret.
  - apply appends_bind; [|done]. destruct (includes _ _); [|apply appends_ret].
    unfold callWatcher. cbn [when].
    apply appends_bind; [apply appends_ret | intros _].
    apply appends_bind; [by apply appends_emit | intros _].
    by apply appends_runScript.
Qed.

Lemma silent_setState fuel inst d partialState setSettings :
  logLevel (_settings inst) = Some LogLevel_None →
  appends (λ e, is_console e.2 = false)
    (setState fuel inst zustand_setState d partialState setSettings).
Proof.
  intros Hlevel. revert d partialState setSettings.
  induction fuel as [|fuel IH]; intros d partialState setSettings w.
  - exists []. cbn. by rewrite app_nil_r.
  - cbn [setState]. unfold setMiddleware. rewrite run_bind, commitPhase_run. cbn zeta.
    rewrite (logOperationsOf_none _ setSettings Hlevel), commit_events_off.
    destruct (recompute _ _ _ _ _) as [uc|].
    + cbn beta iota. rewrite run_bind.
      match goal with
      | |- context [dispatchWatchers ?s d false ?ns ?cur ?ws ?w0] =>
          destruct (silent_dispatchWatchers s d ns cur ws (λ p ss, IH (S d) p ss) w0)
            as (evs & Ht & Hall);
          destruct (dispatchWatchers s d false ns cur ws w0) as [w1 [[]| |]]
      end; cbn [fst trace tagged fmap list_fmap] in Ht; rewrite app_nil_r in Ht.
      * rewrite tail_run. cbn [fst trace tail_events andb app tagged fmap list_fmap].
        exists evs. by rewrite app_nil_r.
      * by exists evs.
      * by exists evs.
    + exists []. cbn. by rewrite !app_nil_r.
Qed.

(** A store whose log level is [none], the default, never calls the
    console: not while it is built, and not in any write through the
    [setState] it exposes, the writes of reactions within it included.
    (For stages, if any, that only wrap the [set].) *)
Theorem store_at_level_none_never_logs fuel stateInitializer addons w :
  only_wraps_set addons →
  default LogLevel_None ((addons ≫= settings) ≫= logLevel) = LogLevel_None →
  ∃ w' us,
    createStore fuel stateInitializer addons w = (w', Done us)
    ∧ trace w' = trace w
    ∧ ∀ partialState setSettings w1,
        ∃ evs,
          trace (use_setState us partialState setSettings w1).1 = trace w1 ++ evs
          ∧ Forall (λ e, is_console e.2 = false) evs.
Proof.
  intros Hmw Hlevel.
  destruct (createStore_run fuel stateInitializer addons w Hmw)
    as (w' & us & uc & evs & Hrun & Hreg & _ & _ & Ht & _ & Hoff).
  assert (∀ ws,
            logLevel (_settings (configWatchers ws
                                   (register (default [] (addons ≫= computed))
                                      (initial_registries addons))))
            = Some LogLevel_None) as Hnone.
  { intros ws. unfold configWatchers. cbn [_settings].
    rewrite (proj2 (register_fields _ _)). cbn [initial_registries _settings logLevel].
    by rewrite Hlevel. }
  exists w', us. split; [done|]. split.
  - rewrite Ht, Hoff, app_nil_r; [done|]. apply logOperationsOf_none.
    rewrite (proj2 (register_fields _ _)). cbn [initial_registries _settings logLevel].
    by rewrite Hlevel.
  - intros partialState setSettings w1.
    apply createStore_wire in Hrun as [-> _]. destruct Hmw as [wraps Hmw].
    rewrite (wire_wrapping _ _ _ _ wraps Hmw). cbn [api_after api_setState].
    apply silent_setState. rewrite Hreg. apply Hnone.
Qed.

(** ** A store without add-ons *)

(** With no computed properties, no watchers, no middleware and the
    log level [none], the store is zustand's: building it installs the
    initializer's state and nothing else, and a write through the facade
    or through the initializer's [set] is zustand's merge.  The second
    argument of the write is dropped on the way, so also here nothing
    replaces the state. *)
Theorem store_without_addons_is_zustand fuel stateInitializer addons w :
  default [] (addons ≫= computed) = [] →
  default [] (addons ≫= watchers) = [] →
  addons ≫= middleware = None →
  default LogLevel_None ((addons ≫= settings) ≫= logLevel) = LogLevel_None →
  ∃ us,
    createStore fuel stateInitializer addons w
    = (mkWorld stateInitializer (trace w), Done us)
    ∧ ∀ partialState second w1,
        use_setState us partialState second w1 = zustand_setState partialState None w1
        ∧ use_initializer_set us partialState second w1
          = zustand_setState partialState None w1.
Proof.
  intros Hcs Hws Hmw Hlevel.
  assert (∀ store, middlewareFunctions (addons ≫= middleware) store
                   = flow (wrapping <$> []) store) as Hwraps
    by (intros store; by rewrite Hmw).
  destruct (createStore_run fuel stateInitializer addons w (ex_intro _ [] Hwraps))
    as (w' & us & uc & evs & Hrun & Hreg & Huc & Hstore & Ht & _ & Hoff).
  rewrite Hcs in Hreg, Huc, Hstore, Hoff. rewrite Hws in Hreg.
  cbn [register staged] in Hreg, Huc, Hstore, Hoff.
  rewrite recompute_no_changes in Huc. injection Huc as <-.
  assert (logLevel (_settings (initial_registries addons)) = Some LogLevel_None) as Hnone.
  { cbn [initial_registries _settings logLevel]. by rewrite Hlevel. }
  rewrite !(left_id_L ∅ (∪)) in Hstore.
  rewrite Hoff, app_nil_r in Ht by (by apply logOperationsOf_none).
  exists us. split.
  - rewrite Hrun. destruct w' as [st tr]. cbn [store trace] in Hstore, Ht. by subst.
  - apply createStore_wire in Hrun as [Hfacade Hset].
    assert (∀ partialState second w1,
              setState (S fuel) (registries us) zustand_setState 0 partialState second w1
              = zustand_setState partialState None w1) as Hplain.
    { intros partialState second w1.
      rewrite (setState_no_watchers _ _ _ _ _ _ ∅); rewrite Hreg; [|done..].
      rewrite (logOperationsOf_none _ second) by done.
      rewrite commit_events_off. cbn [tail_events andb app tagged fmap list_fmap].
      by rewrite app_nil_r, (left_id_L ∅ (∪)). }
    intros partialState second w1. rewrite Hfacade, Hset.
    rewrite (wire_wrapping _ _ _ _ [] Hwraps). split; apply Hplain.
Qed.

(** ** The names of a batch read *)

(** A batch read has one item for every comma of the selector and one
    more, empty parts included; the property read at each position is
    the part trimmed: a name without a comma that neither starts nor
    ends with white space. *)
Theorem batch_read_names selector equalityFn (state : State) :
  has_comma selector = true →
  ∃ items,
    hook_value (stateHook (ByName selector) equalityFn) state = Many items
    ∧ length items = S (count_commas selector)
    ∧ ∀ i, i ≤ count_commas selector →
        ∃ prop,
          (trim <$> split_comma selector) !! i = Some prop
          ∧ items !! i = Some (state !!! prop)
          ∧ has_comma prop = false
          ∧ (∀ c, head_char prop = Some c → is_space c = false)
          ∧ (∀ c, last_char prop = Some c → is_space c = false).
Proof.
  intros Hcomma. unfold stateHook, hook_value. rewrite Hcomma. cbn [hook_selector].
  eexists. split; [reflexivity|].
  rewrite !length_fmap, split_comma_length. split; [done|].
  intros i Hi.
  destruct (lookup_lt_is_Some_2 (split_comma selector) i) as [part Hpart].
  { rewrite split_comma_length. lia. }
  exists (trim part). rewrite !list_lookup_fmap, Hpart. cbn [fmap option_fmap option_map].
  split; [done|]. split; [done|].
  pose proof (split_comma_parts selector) as Hparts.
  rewrite Forall_lookup in Hparts. specialize (Hparts i part Hpart). cbn beta in Hparts.
  unfold trim. split; [by apply has_comma_trimEnd, has_comma_trimStart|]. split.
  - intros c Hc. by apply trimEnd_head, trimStart_head in Hc.
  - apply trimEnd_last.
Qed.

(** * The further properties at concrete stores *)

Local Open Scope string_scope.

Lemma getDeps_names_are_words_witness :
  "first" ≠ "" ∧ all_word "first" = true.
Proof.
  apply (getDeps_names_are_words ex_full "first").
  vm_compute. left.
Defined.

Lemma getDeps_without_this_witness : getDeps ex_stamp = [].
Proof. apply (getDeps_without_this ex_stamp). vm_compute. reflexivity. Defined.

Lemma createStore_calls_no_reaction_witness :
  ∃ evs,
    trace (createStore 2 ex_names (Some ex_watched_addons) (mkWorld ∅ [])).1 = evs
    ∧ Forall (λ e, is_watcher_call e.2 = false) evs.
Proof.
  destruct (createStore_calls_no_reaction 2 ex_names (Some ex_watched_addons) (mkWorld ∅ []))
    as (evs & Ht & Hquiet & _).
  - exists []. intros store. reflexivity.
  - exists evs. split; [exact Ht | exact Hquiet].
Defined.

Lemma createStore_registers_addons_witness :
  ∃ w' us,
    createStore 2 ex_names (Some ex_watched_addons) (mkWorld ∅ []) = (w', Done us)
    ∧ _computedPropDependencies (registries us) = [("full", ["first"; "last"])]
    ∧ (_watchers (registries us)).*1 = ["full"].
Proof.
  destruct (createStore_registers_addons 2 ex_names (Some ex_watched_addons) (mkWorld ∅ []))
    as (w' & us & Hrun & Hws & Hdeps & _).
  - exists []. intros store. reflexivity.
  - apply (bool_decide_unpack _). vm_compute. exact I.
  - apply (bool_decide_unpack _). vm_compute. exact I.
  - exists w', us. split; [exact Hrun|]. split.
    + rewrite Hdeps. vm_compute. reflexivity.
    + rewrite Hws. reflexivity.
Defined.

Lemma createStore_initial_keys_witness :
  ∃ w' us,
    createStore 2 ex_names (Some ex_three_addons) (mkWorld ∅ []) = (w', Done us)
    ∧ is_Some (store w' !! "stamp")
    ∧ store w' !! "first" = Some (VStr "Ada").
Proof.
  destruct (createStore_initial_keys 2 ex_names (Some ex_three_addons) (mkWorld ∅ []))
    as (w' & us & Hrun & Hkeys).
  - exists []. intros store. reflexivity.
  - exists w', us. split; [exact Hrun|]. split.
    + apply (Hkeys "stamp"); [discriminate|].
      apply (bool_decide_unpack _). vm_compute. exact I.
    + rewrite (proj2 (Hkeys "first" ltac:(discriminate))); [reflexivity|].
      apply (bool_decide_unpack _). vm_compute. exact I.
Defined.

Lemma createStore_initial_value_witness :
  ∃ w' us,
    createStore 2 ex_names (Some ex_addons) (mkWorld ∅ []) = (w', Done us)
    ∧ store w' !! "full" = Some (VStr "Ada Lovelace").
Proof.
  destruct (createStore_initial_value 2 ex_names (Some ex_addons) (mkWorld ∅ [])
              [] "full" ex_full [("greet", ex_greet)])
    as (w' & us & Hrun & Hfull).
  - exists []. intros store. reflexivity.
  - reflexivity.
  - apply (bool_decide_unpack _). vm_compute. exact I.
  - discriminate.
  - intros d Hd. rewrite getDeps_full in Hd.
    apply elem_of_cons in Hd as [->|Hd];
      [|apply elem_of_cons in Hd as [->|Hd]; [|by apply not_elem_of_nil in Hd]];
      apply (bool_decide_unpack _); vm_compute; exact I.
  - exists w', us. split; [exact Hrun|]. rewrite Hfull. vm_compute. reflexivity.
Defined.

Lemma console_group_closed_iff_returns_witness :
  ∃ evs,
    trace (setState 1 ex_logging zustand_setState 0 (Plain ex_count_one) None
             (mkWorld ∅ [])).1 = evs
    ∧ ConsoleGroupEnd ∈ at_depth 0 evs.
Proof.
  destruct (console_group_closed_iff_returns 0 ex_logging 0 (Plain ex_count_one) None
              (mkWorld ∅ []) (mkWorld ex_count_one ex_logged) (Done tt))
    as (evs & Ht & _ & Hclosed).
  - vm_compute. reflexivity.
  - cbn [trace app] in Ht. exists evs. split.
    + rewrite <- Ht. vm_compute. reflexivity.
    + apply Hclosed. split; vm_compute; reflexivity.
Defined.

Lemma state_logged_at_level_all_witness :
  ∃ evs,
    trace (setState 1 ex_logging zustand_setState 0 (Plain ex_count_one) None
             (mkWorld ∅ [])).1 = evs
    ∧ ConsoleLog "Previous State" (Some ∅) ∈ at_depth 0 evs
    ∧ ConsoleLog "New State" (Some ex_count_one) ∈ at_depth 0 evs.
Proof.
  destruct (state_logged_at_level_all 0 ex_logging 0 (Plain ex_count_one) None
              (mkWorld ∅ []) (mkWorld ex_count_one ex_logged) (Done tt))
    as (evs & Ht & Hprevious & Hnew).
  - vm_compute. reflexivity.
  - cbn [trace app] in Ht. exists evs. split; [|split].
    + rewrite <- Ht. vm_compute. reflexivity.
    + apply Hprevious. repeat split; vm_compute; reflexivity.
    + apply Hnew. repeat split; vm_compute; reflexivity.
Defined.

Lemma commit_by_key_witness :
  ex_after !! "full" = Some (VStr "Grace Lovelace")
  ∧ ex_after !! "first" = Some (VStr "Grace")
  ∧ ex_after !! "last" = ex_before !! "last".
Proof.
  destruct (commit_by_key ex_computed 0 ex_write_first None
              (mkWorld ex_before []) (mkWorld ex_after [])
              {[ "first" := VStr "Grace"; "full" := VStr "Grace Lovelace" ]}
              ex_before false)
    as (uc & Huc & Hkey).
  - vm_compute. reflexivity.
  - vm_compute in Huc. injection Huc as <-. cbn [store] in Hkey.
    split; [|split]; rewrite Hkey; vm_compute; reflexivity.
Defined.

Lemma reaction_reads_committed_state_witness :
  dispatchWatchers zustand_setState 0 false ex_abc ∅
    ([("a", λ _ _, Ret)] ++ [("b", λ _ _, CallGet ex_reader)]) (mkWorld ex_abc [])
  = (mkWorld (<[ "seen" := VNum 3 ]> ex_abc)
       [(0, WatcherCalled "a" (VNum 1) VUndefined);
        (0, WatcherCalled "b" (VNum 2) VUndefined)]%nat,
     Done tt).
Proof.
  etrans.
  - apply (reaction_reads_committed_state ex_empty zustand_setState 0 (Plain ex_abc) None
             (mkWorld ∅ []) (mkWorld ex_abc []) ex_abc ∅ false
             [("a", λ _ _, Ret)] "b" (λ _ _, ex_reader) []).
    + vm_compute. reflexivity.
    + intros propName fn n o Hin. apply list_elem_of_singleton in Hin.
      injection Hin as -> ->. exact I.
  - vm_compute. reflexivity.
Defined.

Lemma watcher_writing_its_own_key_never_returns_witness :
  (setState 5 ex_loop zustand_setState 0 (Plain ex_count_one) None (mkWorld ∅ [])).2
  = OutOfFuel.
Proof.
  apply (watcher_writing_its_own_key_never_returns ex_loop [] "count" (λ n _, n) None Ret []).
  - intros name Hin. cbn in Hin. by apply not_elem_of_nil in Hin.
  - reflexivity.
  - intros propName fn n o Hin. by apply not_elem_of_nil in Hin.
Defined.

Lemma watcher_on_computed_property_witness :
  ∃ evs,
    trace (setState 1 ex_watched zustand_setState 0 ex_write_first None
             (mkWorld ex_before [])).1 = evs
    ∧ watcher_calls "full" (at_depth 0 evs) = [(VStr "Grace Lovelace", VStr "Ada Lovelace")].
Proof.
  destruct (watcher_on_computed_property 0 ex_watched 0 ex_write_first None
              (mkWorld ex_before [])
              (mkWorld ex_after
                 [(0%nat, WatcherCalled "full" (VStr "Grace Lovelace") (VStr "Ada Lovelace"))])
              (Raised "called")
              [] "full" ["first"; "last"] [("greet", ["full"])]
              [] (λ _ _, Raise "called") [])
    as (evs & fn & uc_pre & Ht & Hfn & Hpre & Hcalls).
  - intros name Hin. revert Hin. vm_compute.
    intros [->|[->|Hin]%elem_of_cons]%elem_of_cons; [by eexists..|].
    by apply not_elem_of_nil in Hin.
  - reflexivity.
  - apply (bool_decide_unpack _). vm_compute. exact I.
  - reflexivity.
  - apply (bool_decide_unpack _). vm_compute. exact I.
  - intros propName f n o Hin. by apply not_elem_of_nil in Hin.
  - exists "first". split; [by left|]. vm_compute. eauto.
  - vm_compute. reflexivity.
  - cbn [trace app] in Ht. exists evs. split.
    + rewrite <- Ht. vm_compute. reflexivity.
    + rewrite Hcalls. vm_compute in Hfn. injection Hfn as <-.
      vm_compute in Hpre. injection Hpre as <-. vm_compute. reflexivity.
Defined.

Lemma no_write_removes_a_property_witness :
  is_Some (store (setState 1 ex_counter zustand_setState 0 (Plain ex_count_one) (Some ∅)
                    (mkWorld ex_abc [])).1 !! "a").
Proof.
  apply (no_write_removes_a_property 1 ex_counter 0 (Plain ex_count_one) (Some ∅)
           (mkWorld ex_abc []) "a").
  vm_compute. eauto.
Defined.

Lemma store_at_level_none_never_logs_witness :
  ∃ w' us,
    createStore 2 ex_names (Some ex_addons) (mkWorld ∅ []) = (w', Done us)
    ∧ trace w' = [].
Proof.
  destruct (store_at_level_none_never_logs 2 ex_names (Some ex_addons) (mkWorld ∅ []))
    as (w' & us & Hrun & Ht & _).
  - exists []. intros store. reflexivity.
  - reflexivity.
  - exists w', us. split; [exact Hrun | exact Ht].
Defined.

Lemma store_without_addons_is_zustand_witness :
  ∃ us,
    createStore 2 ex_names None (mkWorld ∅ []) = (mkWorld ex_names [], Done us)
    ∧ use_setState us (Plain ex_count_one) (Some ∅) (mkWorld ex_names [])
      = (mkWorld (ex_count_one ∪ ex_names) [], Done tt).
Proof.
  destruct (store_without_addons_is_zustand 2 ex_names None (mkWorld ∅ []))
    as (us & Hrun & Hwrite).
  - reflexivity.
  - reflexivity.
  - reflexivity.
  - reflexivity.
  - exists us. split; [exact Hrun|].
    rewrite (proj1 (Hwrite (Plain ex_count_one) (Some ∅) (mkWorld ex_names []))).
    reflexivity.
Defined.

Lemma batch_read_names_witness :
  ∃ items,
    hook_value (stateHook (ByName "a, b") None) {[ "a" := VNum 1; "b" := VNum 2 ]}
    = Many items
    ∧ length items = 2%nat.
Proof.
  destruct (batch_read_names "a, b" None {[ "a" := VNum 1; "b" := VNum 2 ]} eq_refl)
    as (items & Hread & Hlen & _).
  exists items. split; [exact Hread | exact Hlen].
Defined.
